(** * Sudoku engine of [src/main.cpp]: shallow embedding and verification

    The class [SudokuGame] keeps three 9x9 tables ([board], [solution],
    [fixed]) and a Mersenne-Twister generator [rng].  The tables are
    [std::vector<std::vector<...>>] and are modelled as lists of lists; C++
    [int] values are modelled as [Z] (no arithmetic of the engine leaves the
    range of a 32-bit [int]: the only increment is [count++] below a limit).
    Reference parameters that a method mutates ([grid], [count], the member
    [rng]) are threaded explicitly through the functions. *)

From Stdlib Require Import String ZArith List Bool Lia Permutation FinFun.
From Stdlib Require Import Sorted.
Import ListNotations.
Open Scope Z_scope.

(** ** Data model *)

Definition SIZE : Z := 9.
Definition EMPTY : Z := 0.

Definition Grid := list (list Z).
Definition Mask := list (list bool).

(** [v[i]] and [v[i] = x] on a vector.  Indexing outside the vector is
    undefined behaviour in C++; here a read yields the default and a write
    does nothing.  Every index the engine uses is in range. *)
Fixpoint update {A : Type} (v : list A) (i : nat) (x : A) : list A :=
  match v, i with
  | [], _ => []
  | _ :: t, O => x :: t
  | h :: t, S k => h :: update t k x
  end.

Definition vec_get {A : Type} (d : A) (v : list A) (i : Z) : A :=
  if i <? 0 then d else nth (Z.to_nat i) v d.

Definition vec_set {A : Type} (v : list A) (i : Z) (x : A) : list A :=
  if i <? 0 then v else update v (Z.to_nat i) x.

(** [grid[r][c]] and [grid[r][c] = x]. *)
Definition get (g : Grid) (r c : Z) : Z := vec_get EMPTY (vec_get [] g r) c.
Definition set (g : Grid) (r c x : Z) : Grid :=
  vec_set g r (vec_set (vec_get [] g r) c x).

Definition getb (m : Mask) (r c : Z) : bool := vec_get false (vec_get [] m r) c.
Definition setb (m : Mask) (r c : Z) (x : bool) : Mask :=
  vec_set m r (vec_set (vec_get [] m r) c x).

(** [std::vector<T>(n, x)] and [std::vector<std::vector<T>>(n, row)]. *)
Definition filled {A : Type} (x : A) : list (list A) :=
  repeat (repeat x (Z.to_nat SIZE)) (Z.to_nat SIZE).

(** The values [lo, lo+1, ..., lo+n-1] taken by a counting [for] loop. *)
Definition zrange (lo : Z) (n : nat) : list Z :=
  map (fun i => lo + Z.of_nat i) (seq 0 n).

Definition upto (n : Z) : list Z := zrange 0 (Z.to_nat n).

(** The positions in the order of the nested loops
    [for r in 0..SIZE) for c in 0..SIZE)]. *)
Definition allCells : list (Z * Z) :=
  flat_map (fun r => map (fun c => (r, c)) (upto SIZE)) (upto SIZE).

(** ** Constraint checker *)

(** [isValidInGrid]: the three scans return [false] at the first clash. *)
Definition isValidInGrid (grid : Grid) (row col num : Z) : bool :=
  forallb (fun c => negb (negb (c =? col) && (get grid row c =? num)))
          (upto SIZE)
  && forallb (fun r => negb (negb (r =? row) && (get grid r col =? num)))
             (upto SIZE)
  && (let boxRow := (row ÷ 3) * 3 in
      let boxCol := (col ÷ 3) * 3 in
      forallb (fun r =>
        forallb (fun c =>
          negb ((negb (r =? row) || negb (c =? col)) && (get grid r c =? num)))
          (zrange boxCol 3))
        (zrange boxRow 3)).

(** [isValidMove]: the same scans on the member [board], behind the range
    check of the three arguments. *)
Definition isValidMove (board : Grid) (row col num : Z) : bool :=
  if (row <? 0) || (row >=? SIZE) || (col <? 0) || (col >=? SIZE)
     || (num <? 1) || (num >? SIZE)
  then false
  else isValidInGrid board row col num.

Definition isComplete (board : Grid) : bool :=
  forallb (fun r => forallb (fun c => negb (get board r c =? EMPTY)) (upto SIZE))
          (upto SIZE).

(** ** Candidate enumerator *)

Definition getCandidates (grid : Grid) (row col : Z) : list Z :=
  filter (fun num => isValidInGrid grid row col num) (zrange 1 (Z.to_nat SIZE)).

(** ** Cell selection (minimum remaining values)

    [findBestCell] writes the chosen cell through [row] and [col] and returns
    [found]; the model returns [Some (row, col)] when [found] is true and
    [None] otherwise.  [cells] is the part of the scan still ahead. *)
Fixpoint findBestCell_from (grid : Grid) (cells : list (Z * Z))
    (minCandidates : Z) (best : option (Z * Z)) : option (Z * Z) :=
  match cells with
  | [] => best
  | (r, c) :: rest =>
      if get grid r c =? EMPTY then
        let candidateCount := Z.of_nat (length (getCandidates grid r c)) in
        if candidateCount <? minCandidates then
          if candidateCount =? 1 then Some (r, c)
          else findBestCell_from grid rest candidateCount (Some (r, c))
        else findBestCell_from grid rest minCandidates best
      else findBestCell_from grid rest minCandidates best
  end.

Definition findBestCell (grid : Grid) : option (Z * Z) :=
  findBestCell_from grid allCells (SIZE + 1) None.

(** ** Random source

    The generator is modelled by the sequence of raw numbers it is still going
    to deliver (an exhausted list keeps delivering 0), so that a statement
    quantified over [Rng] holds for every seed.
    [uniform_int a b] is [std::uniform_int_distribution<int>(a, b)(rng)];
    [shuffle] is [std::shuffle]: position [i] is exchanged with a position
    drawn from [0..i], for [i = 1 .. n-1]. *)
Definition Rng := list Z.

Definition uniform_int (a b : Z) (rng : Rng) : Z * Rng :=
  match rng with
  | [] => (a, [])
  | x :: rest => (a + x mod (b - a + 1), rest)
  end.

Definition swap {A : Type} (v : list A) (i j : nat) : list A :=
  match nth_error v i, nth_error v j with
  | Some a, Some b => update (update v i b) j a
  | _, _ => v
  end.

Fixpoint shuffle_from {A : Type} (steps i : nat) (v : list A) (rng : Rng)
    : list A * Rng :=
  match steps with
  | O => (v, rng)
  | S k =>
      let (j, rng') := uniform_int 0 (Z.of_nat i) rng in
      shuffle_from k (S i) (swap v i (Z.to_nat j)) rng'
  end.

Definition shuffle {A : Type} (v : list A) (rng : Rng) : list A * Rng :=
  shuffle_from (length v - 1) 1%nat v rng.

(** ** Backtracking solver

    Each call of [solveBacktrack] that recurses has first filled an empty
    cell, so the recursion is at most [SIZE * SIZE] deep; the model recurses on
    a counter ([None] when it runs out) and the entry point supplies
    [SIZE * SIZE + 1].  The result is the returned flag, the grid as the call
    leaves it and the generator as it leaves it. *)
Fixpoint tryCandidates (recurse : Grid -> Rng -> option (bool * Grid * Rng))
    (row col : Z) (candidates : list Z) (grid : Grid) (rng : Rng)
    : option (bool * Grid * Rng) :=
  match candidates with
  | [] => Some (false, grid, rng)
  | num :: rest =>
      if isValidInGrid grid row col num then
        match recurse (set grid row col num) rng with
        | None => None
        | Some (true, grid', rng') => Some (true, grid', rng')
        | Some (false, grid', rng') =>
            tryCandidates recurse row col rest (set grid' row col EMPTY) rng'
        end
      else tryCandidates recurse row col rest grid rng
  end.

Fixpoint solveBacktrack_fuel (fuel : nat) (grid : Grid) (rng : Rng)
    : option (bool * Grid * Rng) :=
  match fuel with
  | O => None
  | S depth =>
      match findBestCell grid with
      | None => Some (true, grid, rng)
      | Some (row, col) =>
          let (candidates, rng1) := shuffle (getCandidates grid row col) rng in
          tryCandidates (solveBacktrack_fuel depth) row col candidates grid rng1
      end
  end.

Definition maxDepth : nat := S (Z.to_nat (SIZE * SIZE)).

Definition solveBacktrack (grid : Grid) (rng : Rng) : option (bool * Grid * Rng) :=
  solveBacktrack_fuel maxDepth grid rng.

(** ** Uniqueness counter

    [countSolutions] mutates [grid] and [count].  The third component of the
    state is a ghost trace: every assignment [grid[row][col] = num] is
    recorded, newest first, with the value [count] had when it was made.  The
    trace is not read by the code. *)
Record Assignment := mkAssignment
  { a_row : Z; a_col : Z; a_num : Z; a_count : Z }.

Definition Trace := list Assignment.

Fixpoint countCandidates (recurse : Grid -> Z -> Trace -> option (Grid * Z * Trace))
    (row col : Z) (limit : Z) (candidates : list Z)
    (grid : Grid) (count : Z) (tr : Trace) : option (Grid * Z * Trace) :=
  match candidates with
  | [] => Some (grid, count, tr)
  | num :: rest =>
      if count >=? limit then Some (grid, count, tr)
      else
        match recurse (set grid row col num) count
                      (mkAssignment row col num count :: tr) with
        | None => None
        | Some (grid', count', tr') =>
            countCandidates recurse row col limit rest
                            (set grid' row col EMPTY) count' tr'
        end
  end.

Fixpoint countSolutions_fuel (fuel : nat) (limit : Z) (grid : Grid) (count : Z)
    (tr : Trace) : option (Grid * Z * Trace) :=
  match fuel with
  | O => None
  | S depth =>
      if count >=? limit then Some (grid, count, tr)
      else
        match findBestCell grid with
        | None => Some (grid, count + 1, tr)
        | Some (row, col) =>
            countCandidates (countSolutions_fuel depth limit) row col limit
                            (getCandidates grid row col) grid count tr
        end
  end.

Definition countSolutions (grid : Grid) (count limit : Z)
    : option (Grid * Z * Trace) :=
  countSolutions_fuel maxDepth limit grid count [].

(** ** The game object *)

Record SudokuGame := mkGame
  { board : Grid; solution : Grid; fixed : Mask; rng : Rng }.

Inductive Difficulty := EASY | MEDIUM | HARD | EXPERT.

Definition clues (d : Difficulty) : Z :=
  match d with EASY => 35 | MEDIUM => 30 | HARD => 25 | EXPERT => 20 end.

(** [hasUniqueSolution] counts on a copy of [board]. *)
Definition hasUniqueSolution (board : Grid) : option bool :=
  match countSolutions board 0 2 with
  | None => None
  | Some (_, solutionCount, _) => Some (solutionCount =? 1)
  end.

(** [generateSolution]: the flag and the object afterwards. *)
Definition generateSolution (game : SudokuGame) : option (bool * SudokuGame) :=
  match solveBacktrack (filled EMPTY) (rng game) with
  | None => None
  | Some (ok, grid, rng') =>
      Some (ok, mkGame (board game) grid (fixed game) rng')
  end.

(** A method either returns a value or throws; the object is given in both
    cases, as the method leaves it. *)
Inductive outcome (A : Type) :=
  | Returned (result : A) (game : SudokuGame)
  | Thrown (what : string) (game : SudokuGame).

Arguments Returned {A} result game.
Arguments Thrown {A} what game.

(** The removal loop of [createPuzzle] over [positions[0 .. cellsToRemove)]
    (the loop stops at [positions.size()] if that comes first). *)
Fixpoint removeCells (visit : list (Z * Z)) (board : Grid) (fixed : Mask)
    : option (Grid * Mask) :=
  match visit with
  | [] => Some (board, fixed)
  | (row, col) :: rest =>
      let backup := get board row col in
      let board1 := set board row col EMPTY in
      let fixed1 := setb fixed row col false in
      match hasUniqueSolution board1 with
      | None => None
      | Some true => removeCells rest board1 fixed1
      | Some false =>
          removeCells rest (set board1 row col backup) (setb fixed1 row col true)
      end
  end.

Definition createPuzzle (difficulty : Difficulty) (game : SudokuGame)
    : option (outcome unit) :=
  match generateSolution game with
  | None => None
  | Some (false, game1) => Some (Thrown "Failed to generate solution" game1)
  | Some (true, game1) =>
      let board0 := solution game1 in
      let fixed0 := filled true in
      let (positions, rng1) := shuffle allCells (rng game1) in
      let (offset, rng2) := uniform_int 0 5 rng1 in
      let targetClues := clues difficulty + offset in
      let cellsToRemove := SIZE * SIZE - targetClues in
      match removeCells (firstn (Z.to_nat cellsToRemove) positions)
                        board0 fixed0 with
      | None => None
      | Some (board', fixed') =>
          Some (Returned tt (mkGame board' (solution game1) fixed' rng2))
      end
  end.

(** ** Hints and player moves *)

Record Move := mkMove { row : Z; col : Z; value : Z }.

(** The three refusals of [getHintForCell], told apart by [value]. *)
Definition InvalidPosition : Move := mkMove (-1) (-1) (-1).
Definition AlreadyFilled : Move := mkMove (-1) (-1) (-2).
Definition FixedCell : Move := mkMove (-1) (-1) (-3).

Definition getHintForCell (game : SudokuGame) (row col : Z) : Move :=
  if (row <? 0) || (row >=? SIZE) || (col <? 0) || (col >=? SIZE) then
    InvalidPosition
  else if negb (get (board game) row col =? EMPTY) then AlreadyFilled
  else if getb (fixed game) row col then FixedCell
  else mkMove row col (get (solution game) row col).

Definition withBoard (game : SudokuGame) (b : Grid) : SudokuGame :=
  mkGame b (solution game) (fixed game) (rng game).

(** The [try] block of [makeMove]. *)
Definition makeMove_try (game : SudokuGame) (row col value : Z) : outcome bool :=
  if (row <? 0) || (row >=? SIZE) || (col <? 0) || (col >=? SIZE) then
    Thrown "Position out of bounds" game
  else if getb (fixed game) row col then
    Thrown "Cannot modify fixed cell" game
  else if (value <? 0) || (value >? SIZE) then
    Thrown "Invalid value" game
  else if value =? EMPTY then
    Returned true (withBoard game (set (board game) row col EMPTY))
  else if negb (isValidMove (board game) row col value) then
    Thrown "Invalid move - conflicts with Sudoku rules" game
  else
    Returned true (withBoard game (set (board game) row col value)).

(** [makeMove]: the handler turns every exception into the result [false]
    (the message it prints is not modelled). *)
Definition makeMove (game : SudokuGame) (row col value : Z) : bool * SudokuGame :=
  match makeMove_try game row col value with
  | Returned ok game' => (ok, game')
  | Thrown _ game' => (false, game')
  end.

(** [solvePuzzle] runs the solver on the live board. *)
Definition solvePuzzle (game : SudokuGame) : option (bool * SudokuGame) :=
  match solveBacktrack (board game) (rng game) with
  | None => None
  | Some (ok, grid, rng') =>
      Some (ok, mkGame grid (solution game) (fixed game) rng')
  end.

(** ** Logical hints

    A loop that returns from the function at the first iteration that finds
    something is modelled by [firstSome]. *)
Fixpoint firstSome {A B : Type} (f : A -> option B) (l : list A) : option B :=
  match l with
  | [] => None
  | x :: rest =>
      match f x with
      | Some y => Some y
      | None => firstSome f rest
      end
  end.

(** The answer [Move(-1, -1, -1)]: nothing found. *)
Definition NoMove : Move := mkMove (-1) (-1) (-1).

(** The cells of the box [(boxR, boxC)], in the order of the loops
    [for r in boxR*3 .. (boxR+1)*3) for c in boxC*3 .. (boxC+1)*3)]. *)
Definition boxCells (boxR boxC : Z) : list (Z * Z) :=
  flat_map (fun r => map (fun c => (r, c)) (zrange (boxC * 3) 3))
           (zrange (boxR * 3) 3).

(** Strategy 1 of [getLogicalMove]: the first empty cell with one candidate. *)
Definition nakedSingle (board : Grid) : option Move :=
  firstSome (fun p =>
    let (r, c) := (p : Z * Z) in
    if get board r c =? EMPTY then
      match getCandidates board r c with
      | [v] => Some (mkMove r c v)
      | _ => None
      end
    else None) allCells.

(** Strategy 2 for one [num]: the rows, then the columns, then the boxes. *)
Definition hiddenSingleRows (board : Grid) (num : Z) : option Move :=
  firstSome (fun r =>
    match filter (fun c => (get board r c =? EMPTY) && isValidMove board r c num)
                 (upto SIZE) with
    | [c] => Some (mkMove r c num)
    | _ => None
    end) (upto SIZE).

Definition hiddenSingleCols (board : Grid) (num : Z) : option Move :=
  firstSome (fun c =>
    match filter (fun r => (get board r c =? EMPTY) && isValidMove board r c num)
                 (upto SIZE) with
    | [r] => Some (mkMove r c num)
    | _ => None
    end) (upto SIZE).

Definition hiddenSingleBoxes (board : Grid) (num : Z) : option Move :=
  firstSome (fun boxR =>
    firstSome (fun boxC =>
      match filter (fun p => (get board (fst p) (snd p) =? EMPTY)
                             && isValidMove board (fst p) (snd p) num)
                   (boxCells boxR boxC) with
      | [(r, c)] => Some (mkMove r c num)
      | _ => None
      end) (zrange 0 3)) (zrange 0 3).

Definition hiddenSingle (board : Grid) (num : Z) : option Move :=
  match hiddenSingleRows board num with
  | Some m => Some m
  | None =>
      match hiddenSingleCols board num with
      | Some m => Some m
      | None => hiddenSingleBoxes board num
      end
  end.

Definition getLogicalMove (board : Grid) : Move :=
  match nakedSingle board with
  | Some m => m
  | None =>
      match firstSome (hiddenSingle board) (zrange 1 (Z.to_nat SIZE)) with
      | Some m => m
      | None => NoMove
      end
  end.

(** [getNextMove]: the logical move if there is one, else the value a full
    solve of a copy of the board gives to the first empty cell.  The object
    changes only in its generator. *)
Definition getNextMove (game : SudokuGame) : option (Move * SudokuGame) :=
  let logicalMove := getLogicalMove (board game) in
  if negb (value logicalMove =? -1) then Some (logicalMove, game)
  else
    match solveBacktrack (board game) (rng game) with
    | None => None
    | Some (ok, tempBoard, rng') =>
        let game' := mkGame (board game) (solution game) (fixed game) rng' in
        if ok then
          match firstSome (fun p =>
                  let (r, c) := (p : Z * Z) in
                  if get (board game) r c =? EMPTY
                  then Some (mkMove r c (get tempBoard r c)) else None)
                  allCells with
          | Some m => Some (m, game')
          | None => Some (NoMove, game')
          end
        else Some (NoMove, game')
    end.

(** The scan of [getHint] for the empty cell with the fewest candidates, at
    least one; [cells] is the part of the scan still ahead. *)
Fixpoint getHint_scan (board : Grid) (cells : list (Z * Z))
    (bestRow bestCol minCandidates : Z) : Z * Z :=
  match cells with
  | [] => (bestRow, bestCol)
  | (r, c) :: rest =>
      if get board r c =? EMPTY then
        let n := Z.of_nat (length (getCandidates board r c)) in
        if (n <? minCandidates) && (n >? 0)
        then getHint_scan board rest r c n
        else getHint_scan board rest bestRow bestCol minCandidates
      else getHint_scan board rest bestRow bestCol minCandidates
  end.

Definition getHint (game : SudokuGame) : Move :=
  let hint := getLogicalMove (board game) in
  if negb (value hint =? -1) then hint
  else
    let (bestRow, bestCol) :=
      getHint_scan (board game) allCells (-1) (-1) (SIZE + 1) in
    if negb (bestRow =? -1) && negb (bestCol =? -1)
    then mkMove bestRow bestCol (get (solution game) bestRow bestCol)
    else NoMove.

(** ** Statistics and the start of a game *)

(** The counters [filled], [given] and [playerMoves] that [showStatistics]
    prints (the percentage it also prints is a floating-point quotient and is
    not modelled). *)
Definition showStatistics (game : SudokuGame) : Z * Z * Z :=
  fold_left (fun acc p =>
    let '(filled, given, playerMoves) := acc in
    if negb (get (board game) (fst p) (snd p) =? EMPTY) then
      if getb (fixed game) (fst p) (snd p)
      then (filled + 1, given + 1, playerMoves)
      else (filled + 1, given, playerMoves + 1)
    else acc) allCells (0, 0, 0).

Module Shell.

(** The difficulty [newGame] derives from what it read: [None] is a failed
    read; a failed read or a number outside 1..4 selects Medium. *)
Definition chosenDifficulty (input : option Z) : Difficulty :=
  let choice :=
    match input with
    | None => 2
    | Some choice => if (choice <? 1) || (choice >? 4) then 2 else choice
    end in
  match choice with
  | 1 => EASY
  | 2 => MEDIUM
  | 3 => HARD
  | 4 => EXPERT
  | _ => MEDIUM
  end.

(** The loop of the handler: cells are cleared without any check. *)
Fixpoint clearCells (visit : list (Z * Z)) (board : Grid) (fixed : Mask)
    : Grid * Mask :=
  match visit with
  | [] => (board, fixed)
  | (r, c) :: rest => clearCells rest (set board r c EMPTY) (setb fixed r c false)
  end.

(** The handler of [newGame] for an exception of [createPuzzle]. *)
Definition fallbackPuzzle (diff : Difficulty) (game : SudokuGame)
    : option SudokuGame :=
  match generateSolution game with
  | None => None
  | Some (_, game1) =>
      let (positions, rng1) := shuffle allCells (rng game1) in
      let toRemove := SIZE * SIZE - clues diff in
      let (board', fixed') :=
        clearCells (firstn (Z.to_nat toRemove) positions)
                   (solution game1) (filled true) in
      Some (mkGame board' (solution game1) fixed' rng1)
  end.

(** [newGame], given what it reads from the input. *)
Definition newGame (input : option Z) (game : SudokuGame) : option SudokuGame :=
  let diff := chosenDifficulty input in
  match createPuzzle diff game with
  | None => None
  | Some (Returned _ game') => Some game'
  | Some (Thrown _ game') => fallbackPuzzle diff game'
  end.

End Shell.

(** ** Vocabulary of the specification *)

(** Positions inside the 9x9 table. *)
Definition inRange (i : Z) : Prop := 0 <= i < SIZE.

(** The shape every table of the game has: [SIZE] rows of [SIZE] cells. *)
Definition wfTable {A : Type} (t : list (list A)) : Prop :=
  length t = Z.to_nat SIZE /\ Forall (fun r => length r = Z.to_nat SIZE) t.

Definition wfGrid (g : Grid) : Prop := wfTable g.

(** [(r', c')] is another cell of the row, the column or the 3x3 box of
    [(r, c)]. *)
Definition peers (r c r' c' : Z) : Prop :=
  (r' <> r \/ c' <> c) /\
  (r' = r \/ c' = c \/ (r' / 3 = r / 3 /\ c' / 3 = c / 3)).

(** No peer of [(r, c)] holds [num]. *)
Definition noConflict (g : Grid) (r c num : Z) : Prop :=
  forall r' c', inRange r' -> inRange c' -> peers r c r' c' -> get g r' c' <> num.

(** The cell [(r, c)] holds a digit that none of its peers holds. *)
Definition legalAt (g : Grid) (r c : Z) : Prop :=
  1 <= get g r c <= SIZE /\ noConflict g r c (get g r c).

(** Every filled cell of the grid is legal: a legal (partial) state; on a
    grid without empty cells, a solved Sudoku. *)
Definition legalGrid (g : Grid) : Prop :=
  forall r c, inRange r -> inRange c -> get g r c <> EMPTY -> legalAt g r c.

Definition completeGrid (g : Grid) : Prop :=
  forall r c, inRange r -> inRange c -> get g r c <> EMPTY.

(** [s] keeps every filled cell of [g]. *)
Definition extends (g s : Grid) : Prop :=
  forall r c, inRange r -> inRange c -> get g r c <> EMPTY -> get s r c = get g r c.

(** [s] fills the empty cells of [g], each with a legal digit. *)
Definition completion (g s : Grid) : Prop :=
  wfGrid s /\ completeGrid s /\ extends g s /\
  forall r c, inRange r -> inRange c -> get g r c = EMPTY -> legalAt s r c.

(** [s] is a solved Sudoku that keeps the filled cells of [g]. *)
Definition legalCompletion (g s : Grid) : Prop :=
  wfGrid s /\ completeGrid s /\ extends g s /\ legalGrid s.

(** Number of empty cells, the measure the searches decrease. *)
Definition countEmpty (g : Grid) : nat :=
  length (filter (fun p => get g (fst p) (snd p) =? EMPTY) allCells).

(** Number of filled cells (the clue count of a fresh puzzle). *)
Definition countFilled (g : Grid) : nat :=
  length (filter (fun p => negb (get g (fst p) (snd p) =? EMPTY)) allCells).

(** Every completion the exhaustive search of [countSolutions] would reach
    without its limit, in the order it reaches them. *)
Fixpoint enumerate (fuel : nat) (grid : Grid) : list Grid :=
  match fuel with
  | O => []
  | S depth =>
      match findBestCell grid with
      | None => [grid]
      | Some (row, col) =>
          flat_map (fun num => enumerate depth (set grid row col num))
                   (getCandidates grid row col)
      end
  end.

Definition completions (grid : Grid) : list Grid := enumerate maxDepth grid.

(** What a call of the solver on [g] may answer: [true] with a completion of
    [g], or [false] with [g] itself when [g] has no completion. *)
Definition solved (g : Grid) (res : bool * Grid * Rng) : Prop :=
  match res with
  | (true, g', _) => completion g g'
  | (false, g', _) => g' = g /\ forall s, ~ completion g s
  end.

(** The count [countSolutions] reaches from [count] when [n] completions
    exist. *)
Definition capped (limit count n : Z) : Z :=
  if count >=? limit then count else Z.min limit (count + n).

(** Every recorded assignment was made while the count was below the limit. *)
Definition belowLimit (limit : Z) (tr : Trace) : Prop :=
  Forall (fun a => a_count a < limit) tr.

(** Boolean versions of the predicates, for concrete grids. *)
Definition wfGridb (g : Grid) : bool :=
  Nat.eqb (length g) (Z.to_nat SIZE)
  && forallb (fun r => Nat.eqb (length r) (Z.to_nat SIZE)) g.

Definition legalAtb (g : Grid) (r c : Z) : bool :=
  (1 <=? get g r c) && (get g r c <=? SIZE) && isValidInGrid g r c (get g r c).

Definition legalGridb (g : Grid) : bool :=
  forallb (fun p => (get g (fst p) (snd p) =? EMPTY) || legalAtb g (fst p) (snd p))
          allCells.

Definition completionb (g s : Grid) : bool :=
  wfGridb s
  && forallb (fun p =>
       if get g (fst p) (snd p) =? EMPTY then legalAtb s (fst p) (snd p)
       else get s (fst p) (snd p) =? get g (fst p) (snd p))
     allCells.

(** The board keeps a cell of the solution or leaves it empty. *)
Definition dugFrom (sol b : Grid) : Prop :=
  forall r c, inRange r -> inRange c ->
    get b r c = EMPTY \/ get b r c = get sol r c.

(** The fixed mask marks exactly the filled cells. *)
Definition cluesMarked (b : Grid) (m : Mask) : Prop :=
  forall r c, inRange r -> inRange c ->
    getb m r c = negb (get b r c =? EMPTY).

(** A solved Sudoku. *)
Definition solvedGrid : Grid :=
  [[9; 8; 7; 6; 5; 4; 3; 2; 1]; [6; 5; 4; 3; 2; 1; 9; 8; 7];
   [3; 2; 1; 9; 8; 7; 6; 5; 4]; [8; 7; 9; 4; 3; 6; 2; 1; 5];
   [2; 3; 5; 1; 9; 8; 7; 4; 6]; [4; 1; 6; 5; 7; 2; 8; 9; 3];
   [7; 9; 3; 8; 4; 5; 1; 6; 2]; [5; 6; 8; 2; 1; 3; 4; 7; 9];
   [1; 4; 2; 7; 6; 9; 5; 3; 8]].

(** A game object as the constructor leaves it, with a given generator. *)
Definition newGame (rng : Rng) : SudokuGame :=
  mkGame (filled EMPTY) (filled EMPTY) (filled false) rng.

(** The shuffled positions, the target clue count and the positions the
    removal loop of [createPuzzle] visits, for the object [game1] that
    [generateSolution] leaves. *)
Definition shuffledPositions (game1 : SudokuGame) : list (Z * Z) :=
  fst (shuffle allCells (rng game1)).

Definition targetClues (d : Difficulty) (game1 : SudokuGame) : Z :=
  clues d + fst (uniform_int 0 5 (snd (shuffle allCells (rng game1)))).

Definition visited (d : Difficulty) (game1 : SudokuGame) : list (Z * Z) :=
  firstn (Z.to_nat (SIZE * SIZE - targetClues d game1)) (shuffledPositions game1).

(** The puzzle [createPuzzle EXPERT] makes from a generator that only
    delivers 0. *)
Definition samplePuzzle : SudokuGame :=
  mkGame
    [[0; 0; 0; 0; 0; 0; 0; 0; 0]; [0; 0; 0; 0; 0; 0; 9; 8; 7];
     [0; 0; 0; 9; 8; 7; 6; 5; 4]; [0; 0; 9; 0; 0; 6; 0; 0; 0];
     [0; 3; 0; 0; 0; 0; 0; 4; 0]; [0; 0; 6; 0; 0; 0; 8; 0; 3];
     [0; 9; 0; 0; 0; 5; 1; 6; 2]; [5; 6; 8; 2; 1; 3; 4; 7; 9];
     [1; 4; 2; 7; 6; 9; 5; 3; 0]]
    solvedGrid
    [[false; false; false; false; false; false; false; false; false];
     [false; false; false; false; false; false; true; true; true];
     [false; false; false; true; true; true; true; true; true];
     [false; false; true; false; false; true; false; false; false];
     [false; true; false; false; false; false; false; true; false];
     [false; false; true; false; false; false; true; false; true];
     [false; true; false; false; false; true; true; true; true];
     [true; true; true; true; true; true; true; true; true];
     [true; true; true; true; true; true; true; true; false]]
    [].

(** The object [generateSolution] leaves from the same generator. *)
Definition sampleGenerated : SudokuGame :=
  mkGame (filled EMPTY) solvedGrid (filled false) [].

(** Another solved Sudoku that agrees with [samplePuzzle] on every clue but
    the one at row 1, column 6. *)
Definition otherSolution : Grid :=
  [[6; 8; 7; 3; 5; 4; 2; 9; 1]; [9; 5; 4; 6; 2; 1; 3; 8; 7];
   [3; 2; 1; 9; 8; 7; 6; 5; 4]; [8; 1; 9; 4; 3; 6; 7; 2; 5];
   [2; 3; 5; 1; 7; 8; 9; 4; 6]; [4; 7; 6; 5; 9; 2; 8; 1; 3];
   [7; 9; 3; 8; 4; 5; 1; 6; 2]; [5; 6; 8; 2; 1; 3; 4; 7; 9];
   [1; 4; 2; 7; 6; 9; 5; 3; 8]].

(** [solvedGrid] with the cell (0,0) emptied and the 8 at (8,8) replaced by a
    second 5 of row 8. *)
Definition conflictGrid : Grid := set (set solvedGrid 0 0 EMPTY) 8 8 5.

(** Why a player move is refused. *)
Definition moveRefused (game : SudokuGame) (row col value : Z) : Prop :=
  ~ (inRange row /\ inRange col)
  \/ getb (fixed game) row col = true
  \/ ~ (0 <= value <= SIZE)
  \/ (value <> EMPTY /\ ~ noConflict (board game) row col value).

(** The cells of a row and of a column, in loop order. *)
Definition rowCells (r : Z) : list (Z * Z) := map (fun c => (r, c)) (upto SIZE).
Definition colCells (c : Z) : list (Z * Z) := map (fun r => (r, c)) (upto SIZE).

(** A unit: nine different cells of the board, any two of them peers (a row,
    a column or a box). *)
Definition isUnit (U : list (Z * Z)) : Prop :=
  length U = Z.to_nat SIZE /\ NoDup U /\
  (forall r c, In (r, c) U -> inRange r /\ inRange c) /\
  (forall r c r' c', In (r, c) U -> In (r', c') U ->
     (r' <> r \/ c' <> c) -> peers r c r' c').

(** Every row, every column and every box holds every digit. *)
Definition solvedSudoku (s : Grid) : Prop :=
  forall d, 1 <= d <= SIZE ->
    (forall r, inRange r -> exists c, inRange c /\ get s r c = d) /\
    (forall c, inRange c -> exists r, inRange r /\ get s r c = d) /\
    (forall boxR boxC, 0 <= boxR < 3 -> 0 <= boxC < 3 ->
       exists r c, In (r, c) (boxCells boxR boxC) /\ get s r c = d).

(** The test of the hidden-single scans: the cell is empty and [num] may go
    there. *)
Definition possible (board : Grid) (num : Z) (p : Z * Z) : bool :=
  (get board (fst p) (snd p) =? EMPTY) && isValidMove board (fst p) (snd p) num.

(** Number of candidates of a cell. *)
Definition candidateCount (g : Grid) (r c : Z) : Z :=
  Z.of_nat (length (getCandidates g r c)).

(** [solvedGrid] with the cell (0,0) emptied and a 9 written over the 8 of
    the cell (0,1): no digit can go in (0,0). *)
Definition deadEndGrid : Grid := set (set solvedGrid 0 0 EMPTY) 0 1 9.

(** ** Vectors and tables *)

(** Splits a conjunction into all its parts. *)
Ltac conjs := repeat match goal with |- _ /\ _ => split end.

Lemma update_length {A} (v : list A) i x : length (update v i x) = length v.
Proof.
  revert i; induction v as [|h t IH]; intros [|i]; simpl; auto.
Qed.

Lemma nth_update_same {A} (v : list A) i x d :
  (i < length v)%nat -> nth i (update v i x) d = x.
Proof.
  revert i; induction v as [|h t IH]; intros [|i] Hi; simpl in *; try lia; auto.
  apply IH; lia.
Qed.

Lemma nth_update_other {A} (v : list A) i j x d :
  i <> j -> nth j (update v i x) d = nth j v d.
Proof.
  revert i j; induction v as [|h t IH]; intros [|i] [|j] Hij; simpl; auto.
  congruence.
Qed.

Lemma nth_ext_eq {A} (u v : list A) d :
  length u = length v ->
  (forall i, (i < length u)%nat -> nth i u d = nth i v d) -> u = v.
Proof.
  revert v; induction u as [|h t IH]; intros [|h' t'] Hl Hn; simpl in *;
    try discriminate; auto.
  f_equal.
  - apply (Hn 0%nat); lia.
  - apply IH; [lia|]. intros i Hi. apply (Hn (S i)); lia.
Qed.

Lemma vec_get_set_same {A} (v : list A) i x d :
  0 <= i < Z.of_nat (length v) -> vec_get d (vec_set v i x) i = x.
Proof.
  intros Hi. unfold vec_get, vec_set.
  destruct (i <? 0) eqn:E; [lia|]. apply nth_update_same. lia.
Qed.

Lemma vec_get_set_other {A} (v : list A) i j x d :
  i <> j -> 0 <= i -> 0 <= j -> vec_get d (vec_set v i x) j = vec_get d v j.
Proof.
  intros Hij Hi Hj. unfold vec_get, vec_set.
  destruct (i <? 0) eqn:E; [lia|]. destruct (j <? 0) eqn:E'; [lia|].
  apply nth_update_other. lia.
Qed.

Lemma vec_set_length {A} (v : list A) i x : length (vec_set v i x) = length v.
Proof.
  unfold vec_set. destruct (i <? 0); auto using update_length.
Qed.

Lemma wfTable_row {A} (t : list (list A)) r :
  wfTable t -> inRange r -> length (vec_get [] t r) = Z.to_nat SIZE.
Proof.
  intros [Hl Hr] Hi. unfold vec_get, inRange in *.
  destruct (r <? 0) eqn:E; [lia|].
  rewrite Forall_forall in Hr. apply Hr. apply nth_In. rewrite Hl. lia.
Qed.

Lemma Forall_update {A} (P : A -> Prop) v i x :
  Forall P v -> P x -> Forall P (update v i x).
Proof.
  intros Hv Hx. revert i. induction Hv; intros [|i]; simpl; auto.
Qed.

Lemma wfTable_set {A} (t : list (list A)) r (rowv : list A) :
  wfTable t -> length rowv = Z.to_nat SIZE -> wfTable (vec_set t r rowv).
Proof.
  intros [Hl Hr] Hx. split.
  - rewrite vec_set_length; auto.
  - unfold vec_set. destruct (r <? 0); auto. apply Forall_update; auto.
Qed.

Lemma wfTable_ext {A} (d : A) (t u : list (list A)) :
  wfTable t -> wfTable u ->
  (forall r c, inRange r -> inRange c ->
     vec_get d (vec_get [] t r) c = vec_get d (vec_get [] u r) c) ->
  t = u.
Proof.
  intros Ht Hu H.
  apply (nth_ext_eq t u []); [destruct Ht, Hu; congruence|].
  intros i Hi.
  assert (Ri : inRange (Z.of_nat i)).
  { destruct Ht as [Hl _]. rewrite Hl in Hi. unfold inRange. lia. }
  pose proof (wfTable_row t _ Ht Ri) as L1.
  pose proof (wfTable_row u _ Hu Ri) as L2.
  unfold vec_get in L1, L2.
  destruct (Z.of_nat i <? 0) eqn:E; [lia|]. rewrite Nat2Z.id in L1, L2.
  apply (nth_ext_eq _ _ d); [congruence|].
  intros j Hj. rewrite L1 in Hj.
  assert (Rj : inRange (Z.of_nat j)) by (unfold inRange; lia).
  specialize (H _ _ Ri Rj). unfold vec_get in H.
  rewrite E in H. destruct (Z.of_nat j <? 0) eqn:E'; [lia|].
  rewrite !Nat2Z.id in H. exact H.
Qed.

Lemma get_set_same g r c x :
  wfGrid g -> inRange r -> inRange c -> get (set g r c x) r c = x.
Proof.
  intros Hg Hr Hc. unfold get, set.
  pose proof (wfTable_row g r Hg Hr) as L. destruct Hg as [Hl _].
  unfold inRange in *.
  rewrite vec_get_set_same by lia. apply vec_get_set_same. lia.
Qed.

Lemma get_set_other g r c x r' c' :
  inRange r -> inRange c -> inRange r' -> inRange c' ->
  (r' <> r \/ c' <> c) -> get (set g r c x) r' c' = get g r' c'.
Proof.
  intros Hr Hc Hr' Hc' Hne. unfold get, set, inRange in *.
  destruct (Z.eq_dec r r') as [<-|Hrr].
  - destruct (Z.le_gt_cases (Z.of_nat (length g)) r) as [Hout|Hin].
    + unfold vec_set at 1. destruct (r <? 0) eqn:E; [lia|].
      assert (U : forall (v : Grid) i y, (length v <= i)%nat -> update v i y = v).
      { induction v as [|h t IH]; intros [|i] y Hi; simpl in *; auto; try lia.
        f_equal. apply IH. lia. }
      rewrite U by lia. reflexivity.
    + rewrite vec_get_set_same by lia.
      apply vec_get_set_other; lia.
  - rewrite vec_get_set_other by lia. reflexivity.
Qed.

Lemma wfGrid_set g r c x : wfGrid g -> inRange r -> wfGrid (set g r c x).
Proof.
  intros Hg Hr. unfold set. apply wfTable_set; auto.
  rewrite vec_set_length. apply wfTable_row; auto.
Qed.

Create HintDb sudoku.
#[local] Hint Resolve wfGrid_set : sudoku.

Lemma grid_ext g s :
  wfGrid g -> wfGrid s ->
  (forall r c, inRange r -> inRange c -> get g r c = get s r c) -> g = s.
Proof. intros Hg Hs H. apply (wfTable_ext EMPTY); auto. Qed.

Lemma get_set g r c x r' c' :
  wfGrid g -> inRange r -> inRange c -> inRange r' -> inRange c' ->
  get (set g r c x) r' c' = if (r' =? r) && (c' =? c) then x else get g r' c'.
Proof.
  intros Hg Hr Hc Hr' Hc'.
  destruct (r' =? r) eqn:E1; destruct (c' =? c) eqn:E2; simpl;
    try (apply get_set_other; auto; lia).
  apply Z.eqb_eq in E1, E2. subst. apply get_set_same; auto.
Qed.

(** Undoing an assignment on an empty cell gives the grid back. *)
Lemma set_undo g r c x :
  wfGrid g -> inRange r -> inRange c -> get g r c = EMPTY ->
  set (set g r c x) r c EMPTY = g.
Proof.
  intros Hg Hr Hc He.
  apply grid_ext; auto with sudoku.
  intros r' c' Hr' Hc'.
  rewrite !get_set by auto with sudoku.
  destruct ((r' =? r) && (c' =? c)) eqn:E; auto.
  apply andb_true_iff in E. destruct E as [E1 E2].
  apply Z.eqb_eq in E1, E2. subst. auto.
Qed.

Lemma wfTable_filled {A} (x : A) : wfTable (filled x).
Proof.
  split; unfold filled.
  - apply repeat_length.
  - apply Forall_forall. intros r Hr. apply repeat_spec in Hr. subst.
    apply repeat_length.
Qed.

(** ** Loop ranges *)

Lemma in_zrange lo n x : In x (zrange lo n) <-> lo <= x < lo + Z.of_nat n.
Proof.
  unfold zrange. rewrite in_map_iff. split.
  - intros [i [<- Hi]]. apply in_seq in Hi. lia.
  - intros H. exists (Z.to_nat (x - lo)). split; [lia|]. apply in_seq. lia.
Qed.

Lemma NoDup_zrange lo n : NoDup (zrange lo n).
Proof.
  unfold zrange. apply Injective_map_NoDup; [|apply seq_NoDup].
  intros i j H. lia.
Qed.

Lemma in_upto x : In x (upto SIZE) <-> inRange x.
Proof. unfold upto, inRange. rewrite in_zrange. unfold SIZE. lia. Qed.

Lemma in_allCells r c : In (r, c) allCells <-> inRange r /\ inRange c.
Proof.
  unfold allCells. rewrite in_flat_map. split.
  - intros [r' [Hr' H]]. apply in_map_iff in H. destruct H as [c' [E Hc']].
    inversion E; subst. rewrite <- !in_upto. auto.
  - intros [Hr Hc]. exists r. split; [apply in_upto; auto|].
    apply in_map. apply in_upto; auto.
Qed.

Lemma NoDup_flat_map {A B} (f : A -> list B) (l : list A) :
  NoDup l ->
  (forall a, In a l -> NoDup (f a)) ->
  (forall a b x, In a l -> In b l -> In x (f a) -> In x (f b) -> a = b) ->
  NoDup (flat_map f l).
Proof.
  induction l as [|a l IH]; intros Hnd Hf Hdis; cbn [flat_map]; [constructor|].
  inversion Hnd; subst.
  apply NoDup_app.
  - apply Hf. left; auto.
  - apply IH; auto.
    + intros b Hb. apply Hf. right; auto.
    + intros b c x Hb Hc. apply Hdis; right; auto.
  - intros x Hx Hy. apply in_flat_map in Hy. destruct Hy as [b [Hb Hy]].
    assert (a = b) by (apply (Hdis a b x); simpl; auto).
    subst. contradiction.
Qed.

Lemma NoDup_allCells : NoDup allCells.
Proof.
  unfold allCells. apply NoDup_flat_map.
  - apply NoDup_zrange.
  - intros r _. apply Injective_map_NoDup; [|apply NoDup_zrange].
    intros a b E. congruence.
  - intros r r' x _ _ H1 H2.
    apply in_map_iff in H1, H2.
    destruct H1 as [c [<- _]]. destruct H2 as [c' [E _]]. congruence.
Qed.

Lemma allCells_length : length allCells = Z.to_nat (SIZE * SIZE).
Proof. reflexivity. Qed.

(** ** The constraint checker decides [noConflict] *)

Lemma box_range r x :
  inRange r -> ((r ÷ 3) * 3 <= x < (r ÷ 3) * 3 + 3 <-> inRange x /\ x / 3 = r / 3).
Proof.
  unfold inRange, SIZE. intros Hr.
  rewrite Z.quot_div_nonneg by lia.
  split; intros H; Z.to_euclidean_division_equations; lia.
Qed.

Lemma isValidInGrid_spec g r c num :
  inRange r -> inRange c ->
  (isValidInGrid g r c num = true <-> noConflict g r c num).
Proof.
  intros Hr Hc. unfold isValidInGrid, noConflict, peers.
  rewrite !andb_true_iff, !forallb_forall. split.
  - intros [[Hrow Hcol] Hbox] r' c' Hr' Hc' [Hne Hp] Heq.
    destruct (Z.eq_dec r' r) as [->|Nr].
    + specialize (Hrow c' (proj2 (in_upto _) Hc')).
      rewrite negb_true_iff, andb_false_iff, negb_false_iff in Hrow.
      destruct Hrow as [E|E]; [apply Z.eqb_eq in E; lia|apply Z.eqb_neq in E; auto].
    + destruct (Z.eq_dec c' c) as [->|Nc].
      * specialize (Hcol r' (proj2 (in_upto _) Hr')).
        rewrite negb_true_iff, andb_false_iff, negb_false_iff in Hcol.
        destruct Hcol as [E|E]; [apply Z.eqb_eq in E; lia|apply Z.eqb_neq in E; auto].
      * assert (Hb : r' / 3 = r / 3 /\ c' / 3 = c / 3) by (destruct Hp as [|[|]]; tauto).
        assert (I1 : In r' (zrange (r ÷ 3 * 3) 3)).
        { apply in_zrange. change (Z.of_nat 3) with 3. apply box_range; tauto. }
        assert (I2 : In c' (zrange (c ÷ 3 * 3) 3)).
        { apply in_zrange. change (Z.of_nat 3) with 3. apply box_range; tauto. }
        specialize (Hbox r' I1). rewrite forallb_forall in Hbox.
        specialize (Hbox c' I2).
        rewrite negb_true_iff, andb_false_iff in Hbox.
        destruct Hbox as [E|E]; [|apply Z.eqb_neq in E; auto].
        apply orb_false_iff in E. destruct E as [E _].
        apply negb_false_iff, Z.eqb_eq in E. auto.
  - intros H. repeat split.
    + intros c' Hc'. apply in_upto in Hc'.
      destruct (c' =? c) eqn:E; simpl; auto.
      apply Z.eqb_neq in E. apply negb_true_iff, Z.eqb_neq.
      apply H; auto.
    + intros r' Hr'. apply in_upto in Hr'.
      destruct (r' =? r) eqn:E; simpl; auto.
      apply Z.eqb_neq in E. apply negb_true_iff, Z.eqb_neq.
      apply H; auto.
    + intros r' Hr'. apply forallb_forall. intros c' Hc'.
      apply in_zrange in Hr', Hc'. change (Z.of_nat 3) with 3 in *.
      apply box_range in Hr', Hc'; auto.
      destruct ((negb (r' =? r) || negb (c' =? c))) eqn:E; simpl; auto.
      apply negb_true_iff, Z.eqb_neq.
      apply H; try tauto. split; [|tauto].
      apply orb_true_iff in E.
      destruct E as [E|E]; apply negb_true_iff, Z.eqb_neq in E; auto.
Qed.

Lemma peers_sym r c r' c' : peers r c r' c' -> peers r' c' r c.
Proof. unfold peers. intros [[H|H] [K|[K|[K1 K2]]]]; split; auto. Qed.

(** ** Candidates *)

Lemma in_getCandidates g r c num :
  inRange r -> inRange c ->
  (In num (getCandidates g r c) <-> 1 <= num <= SIZE /\ noConflict g r c num).
Proof.
  intros Hr Hc. unfold getCandidates.
  rewrite filter_In, in_zrange, isValidInGrid_spec by auto.
  change (Z.of_nat (Z.to_nat SIZE)) with 9. unfold SIZE.
  split; intros [H1 H2]; split; auto; lia.
Qed.

Lemma NoDup_getCandidates g r c : NoDup (getCandidates g r c).
Proof. apply NoDup_filter, NoDup_zrange. Qed.

Lemma getCandidates_length g r c :
  Z.of_nat (length (getCandidates g r c)) <= SIZE.
Proof.
  unfold getCandidates.
  pose proof (filter_length_le (fun num => isValidInGrid g r c num)
                (zrange 1 (Z.to_nat SIZE))) as H.
  unfold zrange in H at 2. rewrite length_map, length_seq in H.
  unfold SIZE in *. lia.
Qed.

(** ** Cell selection *)

Lemma findBestCell_from_some g cells m best r c :
  findBestCell_from g cells m best = Some (r, c) ->
  best = Some (r, c) \/ (In (r, c) cells /\ get g r c = EMPTY).
Proof.
  revert m best. induction cells as [|[r0 c0] rest IH]; intros m best H; simpl in H.
  - auto.
  - destruct (get g r0 c0 =? EMPTY) eqn:E.
    + apply Z.eqb_eq in E.
      destruct (Z.of_nat (length (getCandidates g r0 c0)) <? m).
      * destruct (Z.of_nat (length (getCandidates g r0 c0)) =? 1).
        -- inversion H; subst. right. simpl; auto.
        -- apply IH in H. destruct H as [H|[H1 H2]].
           ++ inversion H; subst. right. simpl; auto.
           ++ right. simpl; auto.
      * apply IH in H. simpl. tauto.
    + apply IH in H. simpl. tauto.
Qed.

Lemma findBestCell_from_none g cells m best :
  findBestCell_from g cells m best = None ->
  best = None /\
  (SIZE < m -> forall r c, In (r, c) cells -> get g r c <> EMPTY).
Proof.
  revert m best. induction cells as [|[r0 c0] rest IH]; intros m best H; simpl in H.
  - split; [auto | intros _ r c []].
  - pose proof (getCandidates_length g r0 c0) as L.
    destruct (get g r0 c0 =? EMPTY) eqn:E.
    + destruct (Z.of_nat (length (getCandidates g r0 c0)) <? m) eqn:Em.
      * destruct (Z.of_nat (length (getCandidates g r0 c0)) =? 1);
          [discriminate|].
        apply IH in H. destruct H; discriminate.
      * apply IH in H. destruct H as [Hb Hrest]. split; auto.
        intros Hm. apply Z.ltb_ge in Em. lia.
    + apply Z.eqb_neq in E. apply IH in H. destruct H as [Hb Hrest].
      split; auto. intros Hm r c [Hin|Hin].
      * inversion Hin; subst; auto.
      * apply Hrest; auto.
Qed.

Lemma findBestCell_some g r c :
  findBestCell g = Some (r, c) -> inRange r /\ inRange c /\ get g r c = EMPTY.
Proof.
  intros H. apply findBestCell_from_some in H.
  destruct H as [H|[H1 H2]]; [discriminate|].
  apply in_allCells in H1. tauto.
Qed.

Lemma findBestCell_none g : findBestCell g = None <-> completeGrid g.
Proof.
  split.
  - intros H r c Hr Hc. apply findBestCell_from_none in H.
    destruct H as [_ H]. apply H; [unfold SIZE; lia|]. apply in_allCells; auto.
  - intros Hc. destruct (findBestCell g) as [[r c]|] eqn:E; auto.
    apply findBestCell_some in E. destruct E as [Hr [Hc' He]].
    exfalso. apply (Hc r c); auto.
Qed.

Lemma isComplete_spec g : isComplete g = true <-> completeGrid g.
Proof.
  unfold isComplete, completeGrid. rewrite forallb_forall. split.
  - intros H r c Hr Hc. specialize (H r (proj2 (in_upto _) Hr)).
    rewrite forallb_forall in H. specialize (H c (proj2 (in_upto _) Hc)).
    apply negb_true_iff, Z.eqb_neq in H. auto.
  - intros H r Hr. apply forallb_forall. intros c Hc.
    apply in_upto in Hr, Hc. apply negb_true_iff, Z.eqb_neq. auto.
Qed.

(** ** [std::shuffle] permutes its argument *)

Lemma update_perm {A} (v : list A) i x d :
  (i < length v)%nat -> Permutation (nth i v d :: update v i x) (x :: v).
Proof.
  revert i; induction v as [|h t IH]; intros [|i] Hi; simpl in *; try lia.
  - apply perm_swap.
  - eapply perm_trans; [apply perm_swap|].
    eapply perm_trans; [apply perm_skip, IH; lia|]. apply perm_swap.
Qed.

Lemma swap_perm {A} (v : list A) i j : Permutation (swap v i j) v.
Proof.
  unfold swap.
  destruct (nth_error v i) as [a|] eqn:Ei; [|reflexivity].
  destruct (nth_error v j) as [b|] eqn:Ej; [|reflexivity].
  assert (Li : (i < length v)%nat) by (apply nth_error_Some; congruence).
  assert (Lj : (j < length v)%nat) by (apply nth_error_Some; congruence).
  apply (nth_error_nth _ _ a) in Ei. apply (nth_error_nth _ _ a) in Ej.
  apply (Permutation_cons_inv (a := b)).
  assert (Hb : nth j (update v i b) a = b).
  { destruct (Nat.eq_dec i j) as [->|N].
    - apply nth_update_same; auto.
    - rewrite nth_update_other; auto. }
  pose proof (update_perm (update v i b) j a a) as P1.
  rewrite update_length, Hb in P1. specialize (P1 Lj).
  pose proof (update_perm v i b a Li) as P2. rewrite Ei in P2.
  eapply perm_trans; eauto.
Qed.

Lemma shuffle_from_perm {A} steps i (v : list A) rng :
  Permutation (fst (shuffle_from steps i v rng)) v.
Proof.
  revert i v rng. induction steps as [|k IH]; intros i v rng; simpl.
  - reflexivity.
  - destruct (uniform_int 0 (Z.of_nat i) rng) as [j rng'].
    eapply perm_trans; [apply IH|apply swap_perm].
Qed.

Lemma shuffle_perm {A} (v : list A) rng : Permutation (fst (shuffle v rng)) v.
Proof. apply shuffle_from_perm. Qed.

(** ** Filling a cell removes one empty cell *)

Lemma filter_flip_length {A} (f f' : A -> bool) (l : list A) p0 :
  NoDup l -> In p0 l -> f p0 = true -> f' p0 = false ->
  (forall p, p <> p0 -> f' p = f p) ->
  length (filter f l) = S (length (filter f' l)).
Proof.
  intros Hnd Hin H1 H2 Hext. induction l as [|a l IH]; [destruct Hin|].
  inversion Hnd; subst. simpl. destruct Hin as [->|Hin].
  - rewrite H1, H2. simpl. f_equal. f_equal.
    apply filter_ext_in. intros p Hp. symmetry. apply Hext. congruence.
  - assert (a <> p0) by congruence.
    rewrite (Hext a) by auto. destruct (f a); simpl; rewrite IH; auto.
Qed.

Lemma countEmpty_set g r c x :
  wfGrid g -> inRange r -> inRange c -> get g r c = EMPTY -> x <> EMPTY ->
  countEmpty g = S (countEmpty (set g r c x)).
Proof.
  intros Hg Hr Hc He Hx. unfold countEmpty.
  apply (filter_flip_length _ _ _ (r, c)).
  - apply NoDup_allCells.
  - apply in_allCells; auto.
  - simpl. rewrite He. reflexivity.
  - simpl. rewrite get_set_same by auto. apply Z.eqb_neq; auto.
  - intros [r' c'] Hne. simpl.
    destruct (Z.eq_dec r' r) as [->|Nr].
    + destruct (Z.eq_dec c' c) as [->|Nc]; [congruence|].
      destruct (Z.le_gt_cases 0 c'); [destruct (Z.lt_ge_cases c' SIZE)|].
      * rewrite get_set_other; unfold inRange; auto.
      * unfold get, set. rewrite vec_get_set_same
          by (destruct Hg as [Hl _]; unfold inRange in *; lia).
        unfold vec_get at 1 3. destruct (c' <? 0); auto.
        rewrite !nth_overflow; auto;
          [|rewrite vec_set_length]; rewrite (wfTable_row g r) by auto; lia.
      * unfold get, vec_get at 1 3. destruct (c' <? 0) eqn:E; auto. lia.
    + assert (U : vec_get [] (set g r c x) r' = vec_get [] g r').
      { unfold set. destruct (Z.le_gt_cases 0 r').
        - apply vec_get_set_other; unfold inRange in *; lia.
        - unfold vec_get. destruct (r' <? 0) eqn:E; auto. lia. }
      unfold get. rewrite U. reflexivity.
Qed.

Lemma countEmpty_bound g : (countEmpty g < maxDepth)%nat.
Proof.
  unfold countEmpty, maxDepth. rewrite <- allCells_length.
  pose proof (filter_length_le (fun p => get g (fst p) (snd p) =? EMPTY) allCells).
  lia.
Qed.

(** ** Completions *)

Lemma completion_refl g : wfGrid g -> completeGrid g -> completion g g.
Proof.
  intros Hg Hc. split; [auto|split; [auto|split]].
  - intros r c Hr Hcc He. reflexivity.
  - intros r c Hr Hcc He. exfalso. apply (Hc r c); auto.
Qed.

Lemma completion_complete_eq g s :
  wfGrid g -> completeGrid g -> completion g s -> s = g.
Proof.
  intros Hg Hc [Hs [_ [He _]]]. apply grid_ext; auto.
Qed.

Lemma eqb_cell r c r' c' :
  (r' =? r) && (c' =? c) = true <-> r' = r /\ c' = c.
Proof. rewrite andb_true_iff, !Z.eqb_eq. tauto. Qed.

(** A completion of the grid with one more cell filled legally is a
    completion of the grid. *)
Lemma completion_step g r c num s :
  wfGrid g -> inRange r -> inRange c -> get g r c = EMPTY ->
  1 <= num <= SIZE -> noConflict g r c num ->
  completion (set g r c num) s -> completion g s.
Proof.
  intros Hg Hr Hc He Hnum Hnc [Hs [Hcomp [Hext Hleg]]].
  assert (Hv : get s r c = num).
  { rewrite (Hext r c Hr Hc); rewrite get_set_same; auto. unfold EMPTY; lia. }
  split; [auto|split; [auto|split]].
  - intros r' c' Hr' Hc' Hne.
    assert (N : r' <> r \/ c' <> c).
    { destruct (Z.eq_dec r' r); auto. destruct (Z.eq_dec c' c); auto.
      subst. contradiction. }
    rewrite (Hext r' c' Hr' Hc'); rewrite get_set_other; auto.
  - intros r0 c0 Hr0 Hc0 He0.
    destruct (Z.eq_dec r0 r) as [->|Nr]; [destruct (Z.eq_dec c0 c) as [->|Nc]|].
    + split; rewrite Hv; [unfold SIZE in *; lia|].
      intros r' c' Hr' Hc' Hp.
      destruct (Z.eq_dec (get g r' c') EMPTY) as [He'|Hne'].
      * assert (Hl : legalAt s r' c').
        { apply Hleg; auto. rewrite get_set_other; auto. destruct Hp; auto. }
        destruct Hl as [_ Hl]. intros Heq.
        apply (Hl r c Hr Hc (peers_sym _ _ _ _ Hp)). congruence.
      * rewrite (Hext r' c' Hr' Hc'); rewrite get_set_other; auto;
          destruct Hp; auto.
    + apply Hleg; auto. rewrite get_set_other; auto.
    + apply Hleg; auto. rewrite get_set_other; auto.
Qed.

(** A completion of the grid is a completion of the grid with any empty cell
    filled as the completion fills it, and that value is a candidate. *)
Lemma completion_set g r c s :
  wfGrid g -> inRange r -> inRange c -> get g r c = EMPTY ->
  completion g s -> completion (set g r c (get s r c)) s.
Proof.
  intros Hg Hr Hc He [Hs [Hcomp [Hext Hleg]]].
  split; [auto|split; [auto|split]].
  - intros r' c' Hr' Hc'. rewrite get_set by auto.
    destruct ((r' =? r) && (c' =? c)) eqn:E.
    + apply eqb_cell in E. destruct E; subst. auto.
    + apply Hext; auto.
  - intros r' c' Hr' Hc' He'. apply Hleg; auto.
    rewrite get_set in He' by auto.
    destruct ((r' =? r) && (c' =? c)) eqn:E; auto.
    apply eqb_cell in E. destruct E; subst. auto.
Qed.

Lemma completion_noConflict g r c s :
  inRange r -> inRange c -> get g r c = EMPTY -> completion g s ->
  1 <= get s r c <= SIZE /\ noConflict g r c (get s r c).
Proof.
  intros Hr Hc He [Hs [Hcomp [Hext Hleg]]].
  destruct (Hleg r c Hr Hc He) as [Hd Hn]. split; auto.
  intros r' c' Hr' Hc' Hp.
  destruct (Z.eq_dec (get g r' c') EMPTY) as [E|N].
  - rewrite E. unfold EMPTY. lia.
  - rewrite <- (Hext r' c' Hr' Hc' N). apply Hn; auto.
Qed.

Lemma completion_candidate g r c s :
  inRange r -> inRange c -> get g r c = EMPTY -> completion g s ->
  In (get s r c) (getCandidates g r c).
Proof.
  intros Hr Hc He Hs. apply in_getCandidates; auto.
  apply completion_noConflict; auto.
Qed.

(** ** The solver: termination, exact undo, soundness and completeness *)

(** The loop over the candidates, for any recursive call that is correct on
    grids with fewer than [depth] empty cells. *)
Section CandidateLoop.
Variable recurse : Grid -> Rng -> option (bool * Grid * Rng).
Variable depth : nat.
Variables row col : Z.

Hypothesis recurse_correct :
  forall g rng, wfGrid g -> (countEmpty g < depth)%nat ->
    exists res, recurse g rng = Some res /\ solved g res.
Hypothesis row_inRange : inRange row.
Hypothesis col_inRange : inRange col.

Lemma tryCandidates_correct :
  forall cands g rng,
    wfGrid g -> get g row col = EMPTY -> (countEmpty g <= depth)%nat ->
    Forall (fun n => 1 <= n <= SIZE) cands ->
    exists res,
      tryCandidates recurse row col cands g rng = Some res /\
      match res with
      | (true, g', _) => completion g g'
      | (false, g', _) =>
          g' = g /\ forall s, completion g s -> ~ In (get s row col) cands
      end.
Proof.
  induction cands as [|num rest IH]; intros g rng Hg He Hd Hcs; simpl.
  - eexists; split; [reflexivity|]. simpl. auto.
  - inversion Hcs as [|? ? Hnum Hrest]; subst.
    destruct (isValidInGrid g row col num) eqn:Ev.
    + apply isValidInGrid_spec in Ev; auto.
      assert (Hne : num <> EMPTY) by (unfold EMPTY; lia).
      pose proof (countEmpty_set g row col num Hg row_inRange col_inRange
                    He Hne) as Hce.
      destruct (recurse_correct (set g row col num) rng)
        as [[[b g'] rng'] [E Hsol]]; [apply wfGrid_set; auto|lia|].
      rewrite E. destruct b; simpl in Hsol.
      * eexists; split; [reflexivity|]. simpl.
        apply (completion_step g row col num); auto.
      * destruct Hsol as [-> Hno]. rewrite set_undo by auto.
        destruct (IH g rng' Hg He Hd Hrest) as [[[b g''] rng''] [E' S']].
        exists (b, g'', rng''). split; auto.
        destruct b; auto. destruct S' as [-> Hno']. split; auto.
        intros s Hs [Hin|Hin]; [|apply (Hno' s); auto].
        apply (Hno s). rewrite Hin. apply completion_set; auto.
    + destruct (IH g rng Hg He Hd Hrest) as [[[b g''] rng''] [E' S']].
      exists (b, g'', rng''). split; auto.
      destruct b; auto. destruct S' as [-> Hno']. split; auto.
      intros s Hs [Hin|Hin]; [|apply (Hno' s); auto].
      destruct (completion_noConflict g row col s row_inRange col_inRange
                  He Hs) as [_ Hn].
      apply isValidInGrid_spec in Hn; auto. congruence.
Qed.
End CandidateLoop.

Lemma solveBacktrack_fuel_correct fuel :
  forall g rng, wfGrid g -> (countEmpty g < fuel)%nat ->
    exists res, solveBacktrack_fuel fuel g rng = Some res /\ solved g res.
Proof.
  induction fuel as [|depth IH]; intros g rng Hg Hd; [lia|]. simpl.
  destruct (findBestCell g) as [[row col]|] eqn:Ef.
  - apply findBestCell_some in Ef. destruct Ef as [Hr [Hc He]].
    pose proof (shuffle_perm (getCandidates g row col) rng) as Hp.
    destruct (shuffle (getCandidates g row col) rng) as [cands rng1].
    simpl in Hp.
    destruct (tryCandidates_correct (solveBacktrack_fuel depth) depth row col
                IH Hr Hc cands g rng1 Hg He) as [[[b g'] rng'] [E S]]; [lia| |].
    + apply Forall_forall. intros n Hn.
      apply (Permutation_in _ Hp) in Hn.
      apply in_getCandidates in Hn; tauto.
    + exists (b, g', rng'). split; auto. destruct b; simpl; auto.
      destruct S as [-> Hno]. split; auto. intros s Hs.
      apply (Hno s Hs). apply (Permutation_in _ (Permutation_sym Hp)).
      apply completion_candidate; auto.
  - eexists; split; [reflexivity|]. simpl.
    apply completion_refl; auto. apply findBestCell_none; auto.
Qed.

Lemma solveBacktrack_correct g rng :
  wfGrid g -> exists res, solveBacktrack g rng = Some res /\ solved g res.
Proof.
  intros Hg. apply solveBacktrack_fuel_correct; auto. apply countEmpty_bound.
Qed.

(** ** The exhaustive enumeration lists the completions, each once *)

Lemma enumerate_spec fuel :
  forall g, wfGrid g -> (countEmpty g < fuel)%nat ->
    (forall s, In s (enumerate fuel g) <-> completion g s) /\
    NoDup (enumerate fuel g).
Proof.
  induction fuel as [|depth IH]; intros g Hg Hd; [lia|]. simpl.
  destruct (findBestCell g) as [[row col]|] eqn:Ef.
  - apply findBestCell_some in Ef. destruct Ef as [Hr [Hc He]].
    assert (Hsub : forall num, In num (getCandidates g row col) ->
              wfGrid (set g row col num) /\
              (countEmpty (set g row col num) < depth)%nat).
    { intros num Hn. apply in_getCandidates in Hn; auto.
      split; [apply wfGrid_set; auto|].
      assert (num <> EMPTY) by (unfold EMPTY; lia).
      pose proof (countEmpty_set g row col num Hg Hr Hc He); lia. }
    split.
    + intros s. rewrite in_flat_map. split.
      * intros [num [Hn Hs]]. destruct (Hsub num Hn) as [W D].
        apply (IH _ W D) in Hs. apply in_getCandidates in Hn; auto.
        apply (completion_step g row col num); tauto.
      * intros Hs. exists (get s row col).
        pose proof (completion_candidate g row col s Hr Hc He Hs) as Hn.
        split; auto. destruct (Hsub _ Hn) as [W D].
        apply (IH _ W D). apply completion_set; auto.
    + apply NoDup_flat_map.
      * apply NoDup_getCandidates.
      * intros num Hn. destruct (Hsub num Hn) as [W D]. apply (IH _ W D).
      * intros a b s Ha Hb Hsa Hsb.
        destruct (Hsub a Ha) as [Wa Da]. destruct (Hsub b Hb) as [Wb Db].
        apply (IH _ Wa Da) in Hsa. apply (IH _ Wb Db) in Hsb.
        apply in_getCandidates in Ha, Hb; auto.
        destruct Hsa as [_ [_ [Ea _]]]. destruct Hsb as [_ [_ [Eb _]]].
        specialize (Ea row col Hr Hc). specialize (Eb row col Hr Hc).
        rewrite get_set_same in Ea, Eb by auto.
        unfold EMPTY in *. rewrite Ea in Eb by lia. apply Eb. lia.
  - apply findBestCell_none in Ef. split.
    + intros s. simpl. split.
      * intros [<-|[]]. apply completion_refl; auto.
      * intros Hs. left. symmetry. apply completion_complete_eq; auto.
    + repeat constructor. intros [].
Qed.

Lemma completions_spec g s : wfGrid g -> (In s (completions g) <-> completion g s).
Proof. intros Hg. apply enumerate_spec; auto. apply countEmpty_bound. Qed.

Lemma completions_NoDup g : wfGrid g -> NoDup (completions g).
Proof. intros Hg. apply enumerate_spec; auto. apply countEmpty_bound. Qed.

(** ** The counter: termination, exact undo and the capped count *)

Lemma capped_capped limit c n m :
  0 <= n -> 0 <= m -> capped limit (capped limit c n) m = capped limit c (n + m).
Proof.
  intros Hn Hm. unfold capped.
  destruct (c >=? limit) eqn:E1.
  - rewrite E1. reflexivity.
  - destruct (Z.min limit (c + n) >=? limit) eqn:E2; lia.
Qed.

(** The loop over the candidates, for any recursive call that restores the
    grid and adds the capped number of completions on grids with fewer than
    [depth] empty cells. *)
Section CountingLoop.
Variable recurse : Grid -> Z -> Trace -> option (Grid * Z * Trace).
Variable depth : nat.
Variables limit row col : Z.

Hypothesis recurse_correct :
  forall g c tr, wfGrid g -> (countEmpty g < depth)%nat ->
    exists tr', recurse g c tr =
      Some (g, capped limit c (Z.of_nat (length (enumerate depth g))), tr').
Hypothesis row_inRange : inRange row.
Hypothesis col_inRange : inRange col.

Lemma countCandidates_correct :
  forall cands g c tr,
    wfGrid g -> get g row col = EMPTY -> (countEmpty g <= depth)%nat ->
    Forall (fun n => n <> EMPTY) cands ->
    exists tr',
      countCandidates recurse row col limit cands g c tr =
      Some (g,
            capped limit c
              (Z.of_nat (length (flat_map
                 (fun num => enumerate depth (set g row col num)) cands))),
            tr').
Proof.
  induction cands as [|num rest IH]; intros g c tr Hg He Hd Hcs; simpl.
  - exists tr. unfold capped. destruct (c >=? limit) eqn:Ec; repeat f_equal.
    simpl. lia.
  - inversion Hcs as [|? ? Hnum Hrest]; subst.
    destruct (c >=? limit) eqn:Ec.
    + exists tr. unfold capped. rewrite Ec. reflexivity.
    + pose proof (countEmpty_set g row col num Hg row_inRange col_inRange
                    He Hnum) as Hce.
      destruct (recurse_correct (set g row col num) c
                  (mkAssignment row col num c :: tr)) as [tr1 E];
        [apply wfGrid_set; auto|lia|].
      rewrite E. rewrite set_undo by auto.
      destruct (IH g (capped limit c (Z.of_nat (length (enumerate depth
                  (set g row col num))))) tr1 Hg He Hd Hrest) as [tr2 E2].
      exists tr2. rewrite E2. rewrite capped_capped by lia.
      rewrite length_app, Nat2Z.inj_add. reflexivity.
Qed.
End CountingLoop.

Lemma countSolutions_fuel_correct limit fuel :
  forall g c tr, wfGrid g -> (countEmpty g < fuel)%nat ->
    exists tr', countSolutions_fuel fuel limit g c tr =
      Some (g, capped limit c (Z.of_nat (length (enumerate fuel g))), tr').
Proof.
  induction fuel as [|depth IH]; intros g c tr Hg Hd; [lia|]. simpl.
  destruct (c >=? limit) eqn:Ec.
  - exists tr. unfold capped. rewrite Ec. reflexivity.
  - destruct (findBestCell g) as [[row col]|] eqn:Ef.
    + apply findBestCell_some in Ef. destruct Ef as [Hr [Hcl He]].
      apply (countCandidates_correct _ depth); auto; [lia|].
      apply Forall_forall. intros n Hn. apply in_getCandidates in Hn; auto.
      unfold EMPTY. lia.
    + exists tr. unfold capped. rewrite Ec. simpl length.
      replace (Z.min limit (c + Z.of_nat 1)) with (c + 1) by lia. reflexivity.
Qed.

Lemma countSolutions_correct g c limit :
  wfGrid g ->
  exists tr, countSolutions g c limit =
    Some (g, capped limit c (Z.of_nat (length (completions g))), tr).
Proof.
  intros Hg. apply countSolutions_fuel_correct; auto. apply countEmpty_bound.
Qed.

Lemma hasUniqueSolution_correct g :
  wfGrid g ->
  hasUniqueSolution g = Some (Nat.eqb (length (completions g)) 1).
Proof.
  intros Hg. unfold hasUniqueSolution.
  destruct (countSolutions_correct g 0 2 Hg) as [tr ->].
  f_equal. unfold capped. simpl.
  destruct (length (completions g)) as [|[|n]]; simpl; auto.
  apply Z.eqb_neq. lia.
Qed.

(** ** The counter tries no assignment once the limit is reached *)

Lemma countCandidates_trace recurse limit row col :
  (forall g c tr res, belowLimit limit tr -> recurse g c tr = Some res ->
     belowLimit limit (snd res)) ->
  forall cands g c tr res,
    belowLimit limit tr ->
    countCandidates recurse row col limit cands g c tr = Some res ->
    belowLimit limit (snd res).
Proof.
  intros Hrec. induction cands as [|num rest IH]; intros g c tr res Ht H;
    simpl in H.
  - inversion H; subst; auto.
  - destruct (c >=? limit) eqn:Ec; [inversion H; subst; auto|].
    destruct (recurse (set g row col num) c (mkAssignment row col num c :: tr))
      as [[[g' c'] tr']|] eqn:E; [|discriminate].
    apply Hrec in E.
    + apply (IH _ _ _ _ E H).
    + constructor; auto. simpl. lia.
Qed.

Lemma countSolutions_fuel_trace limit fuel :
  forall g c tr res, belowLimit limit tr ->
    countSolutions_fuel fuel limit g c tr = Some res ->
    belowLimit limit (snd res).
Proof.
  induction fuel as [|depth IH]; intros g c tr res Ht H; simpl in H;
    [discriminate|].
  destruct (c >=? limit); [inversion H; subst; auto|].
  destruct (findBestCell g) as [[row col]|]; [|inversion H; subst; auto].
  eapply countCandidates_trace; eauto.
Qed.

(** ** The boolean predicates decide the propositions *)

Lemma wfGridb_spec g : wfGridb g = true <-> wfGrid g.
Proof.
  unfold wfGridb, wfGrid, wfTable.
  rewrite andb_true_iff, Nat.eqb_eq, forallb_forall, Forall_forall.
  split; intros [H1 H2]; split; auto; intros r Hr; apply Nat.eqb_eq; auto.
Qed.

Lemma legalAtb_spec g r c :
  inRange r -> inRange c -> (legalAtb g r c = true <-> legalAt g r c).
Proof.
  intros Hr Hc. unfold legalAtb, legalAt.
  rewrite !andb_true_iff, isValidInGrid_spec, !Z.leb_le by auto. tauto.
Qed.

Lemma legalGridb_spec g : legalGridb g = true <-> legalGrid g.
Proof.
  unfold legalGridb, legalGrid. rewrite forallb_forall. split.
  - intros H r c Hr Hc Hne.
    specialize (H (r, c) (proj2 (in_allCells r c) (conj Hr Hc))). simpl in H.
    apply orb_true_iff in H. destruct H as [H|H].
    + apply Z.eqb_eq in H. contradiction.
    + apply legalAtb_spec; auto.
  - intros H [r c] Hin. apply in_allCells in Hin. destruct Hin as [Hr Hc].
    simpl. destruct (get g r c =? EMPTY) eqn:E; simpl; auto.
    apply Z.eqb_neq in E. apply legalAtb_spec; auto.
Qed.

Lemma completionb_sound g s : completionb g s = true -> completion g s.
Proof.
  unfold completionb. rewrite andb_true_iff, forallb_forall.
  intros [Hw H]. apply wfGridb_spec in Hw.
  assert (K : forall r c, inRange r -> inRange c ->
            if get g r c =? EMPTY then legalAt s r c
            else get s r c = get g r c).
  { intros r c Hr Hc.
    specialize (H (r, c) (proj2 (in_allCells r c) (conj Hr Hc))). simpl in H.
    destruct (get g r c =? EMPTY).
    - apply legalAtb_spec; auto.
    - apply Z.eqb_eq; auto. }
  split; [auto|split; [|split]].
  - intros r c Hr Hc. specialize (K r c Hr Hc).
    destruct (get g r c =? EMPTY) eqn:E.
    + destruct K as [K _]. unfold EMPTY. lia.
    + apply Z.eqb_neq in E. congruence.
  - intros r c Hr Hc Hne. specialize (K r c Hr Hc).
    apply Z.eqb_neq in Hne. rewrite Hne in K. auto.
  - intros r c Hr Hc He. specialize (K r c Hr Hc).
    apply Z.eqb_eq in He. rewrite He in K. auto.
Qed.

(** ** Legal states *)

Lemma completion_legal g s : legalGrid g -> completion g s -> legalGrid s.
Proof.
  intros Hl [Hs [Hcomp [Hext Hleg]]] r c Hr Hc _.
  destruct (Z.eq_dec (get g r c) EMPTY) as [E|N]; [apply Hleg; auto|].
  destruct (Hl r c Hr Hc N) as [Hd Hn].
  rewrite <- (Hext r c Hr Hc N) in Hd, Hn. split; auto.
  intros r' c' Hr' Hc' Hp.
  destruct (Z.eq_dec (get g r' c') EMPTY) as [E'|N'].
  - destruct (Hleg r' c' Hr' Hc' E') as [_ Hn'].
    intros Heq. apply (Hn' r c Hr Hc (peers_sym _ _ _ _ Hp)). congruence.
  - rewrite (Hext r' c' Hr' Hc' N'). rewrite (Hext r c Hr Hc N).
    rewrite (Hext r c Hr Hc N) in Hn. apply Hn; auto.
Qed.

Lemma legalCompletion_completion g s : legalCompletion g s -> completion g s.
Proof.
  intros [Hs [Hc [He Hl]]]. split; [auto|split; [auto|split; auto]].
Qed.

Lemma completion_legalCompletion g s :
  legalGrid g -> completion g s -> legalCompletion g s.
Proof.
  intros Hl Hs. pose proof (completion_legal g s Hl Hs).
  destruct Hs as [Hs [Hc [He _]]]. split; [auto|split; [auto|split; auto]].
Qed.

Lemma legalGrid_empty : legalGrid (filled EMPTY).
Proof. apply legalGridb_spec. reflexivity. Qed.

Lemma solvedGrid_completion : completion (filled EMPTY) solvedGrid.
Proof. apply completionb_sound. vm_compute. reflexivity. Qed.

(** ** The fixed mask *)

Lemma getb_setb_same m r c x :
  wfTable m -> inRange r -> inRange c -> getb (setb m r c x) r c = x.
Proof.
  intros Hm Hr Hc. unfold getb, setb.
  pose proof (wfTable_row m r Hm Hr) as L. destruct Hm as [Hl _].
  unfold inRange in *.
  rewrite vec_get_set_same by lia. apply vec_get_set_same. lia.
Qed.

Lemma getb_setb_other m r c x r' c' :
  wfTable m -> inRange r -> inRange c -> inRange r' -> inRange c' ->
  (r' <> r \/ c' <> c) -> getb (setb m r c x) r' c' = getb m r' c'.
Proof.
  intros Hm Hr Hc Hr' Hc' Hne. unfold getb, setb.
  destruct Hm as [Hl _]. unfold inRange in *.
  destruct (Z.eq_dec r r') as [<-|Hrr].
  - rewrite vec_get_set_same by lia. apply vec_get_set_other; lia.
  - rewrite vec_get_set_other by lia. reflexivity.
Qed.

Lemma wfTable_setb m r c x : wfTable m -> inRange r -> wfTable (setb m r c x).
Proof.
  intros Hm Hr. unfold setb. apply wfTable_set; auto.
  rewrite vec_set_length. apply wfTable_row; auto.
Qed.

Lemma getb_filled_true r c : inRange r -> inRange c -> getb (filled true) r c = true.
Proof.
  intros Hr Hc.
  assert (H : forallb (fun p => getb (filled true) (fst p) (snd p)) allCells = true)
    by reflexivity.
  rewrite forallb_forall in H.
  apply (H (r, c)). apply in_allCells; auto.
Qed.

(** ** Puzzle generation *)

Lemma set_restore g r c x :
  wfGrid g -> inRange r -> inRange c -> set (set g r c x) r c (get g r c) = g.
Proof.
  intros Hg Hr Hc. apply grid_ext; auto with sudoku.
  intros r' c' Hr' Hc'. rewrite !get_set by auto with sudoku.
  destruct ((r' =? r) && (c' =? c)) eqn:E; auto.
  apply eqb_cell in E. destruct E; subst; auto.
Qed.

Lemma set_same g r c :
  wfGrid g -> inRange r -> inRange c -> set g r c (get g r c) = g.
Proof.
  intros Hg Hr Hc. apply grid_ext; auto with sudoku.
  intros r' c' Hr' Hc'. rewrite !get_set by auto.
  destruct ((r' =? r) && (c' =? c)) eqn:E; auto.
  apply eqb_cell in E. destruct E; subst; auto.
Qed.

Lemma uniform_int_range a b rng :
  a <= b -> a <= fst (uniform_int a b rng) <= b.
Proof.
  intros Hab. unfold uniform_int. destruct rng as [|x rest]; simpl; [lia|].
  pose proof (Z.mod_pos_bound x (b - a + 1)). lia.
Qed.

Lemma completions_complete g :
  completeGrid g -> completions g = [g].
Proof.
  intros Hc. unfold completions, maxDepth. cbn [enumerate].
  apply findBestCell_none in Hc. rewrite Hc. reflexivity.
Qed.

Lemma generateSolution_correct game :
  exists sol rng',
    generateSolution game =
      Some (true, mkGame (board game) sol (fixed game) rng') /\
    completion (filled EMPTY) sol.
Proof.
  unfold generateSolution.
  destruct (solveBacktrack_correct (filled EMPTY) (rng game))
    as [[[b sol] rng'] [E Hs]]; [apply wfTable_filled|].
  rewrite E. destruct b; simpl in Hs.
  - exists sol, rng'. split; auto.
  - destruct Hs as [_ Hno]. exfalso.
    apply (Hno solvedGrid). apply solvedGrid_completion.
Qed.

Lemma removeCells_correct sol :
  forall visit b m,
    (forall p, In p visit -> In p allCells) ->
    wfGrid b -> wfTable m -> dugFrom sol b -> cluesMarked b m ->
    hasUniqueSolution b = Some true ->
    exists b' m',
      removeCells visit b m = Some (b', m') /\
      wfGrid b' /\ wfTable m' /\ dugFrom sol b' /\ cluesMarked b' m' /\
      hasUniqueSolution b' = Some true /\
      (forall r c, inRange r -> inRange c -> ~ In (r, c) visit ->
         get b' r c = get b r c).
Proof.
  induction visit as [|[row col] rest IH];
    intros b m Hin Hb Hm Hdug Hcl Hu; cbn [removeCells].
  - exists b, m. conjs; auto.
  - assert (Hrc : inRange row /\ inRange col)
      by (apply in_allCells, Hin; left; auto).
    destruct Hrc as [Hr Hc].
    assert (Hin' : forall p, In p rest -> In p allCells)
      by (intros p Hp; apply Hin; right; auto).
    pose proof (wfGrid_set b row col EMPTY Hb Hr) as Hb1.
    rewrite (hasUniqueSolution_correct _ Hb1).
    destruct (Nat.eqb (length (completions (set b row col EMPTY))) 1) eqn:E.
    + destruct (IH (set b row col EMPTY) (setb m row col false) Hin' Hb1)
        as [b' [m' [E' [W [Wm [D [C [U F]]]]]]]].
      * apply wfTable_setb; auto.
      * intros r c Hr' Hc'. rewrite get_set by auto.
        destruct ((r =? row) && (c =? col)); auto.
      * intros r c Hr' Hc'. rewrite get_set by auto.
        destruct ((r =? row) && (c =? col)) eqn:Erc.
        -- apply eqb_cell in Erc. destruct Erc; subst.
           rewrite getb_setb_same; auto.
        -- rewrite getb_setb_other; auto.
           destruct (Z.eq_dec r row); auto. destruct (Z.eq_dec c col); auto.
           subst. rewrite !Z.eqb_refl in Erc. discriminate.
      * rewrite (hasUniqueSolution_correct _ Hb1), E. reflexivity.
      * exists b', m'. conjs; auto.
        intros r c Hr' Hc' Hn. rewrite F; auto.
        -- apply get_set_other; auto.
           destruct (Z.eq_dec r row); auto. destruct (Z.eq_dec c col); auto.
           subst. exfalso. apply Hn. left; auto.
        -- intros Hx. apply Hn. right; auto.
    + assert (Hne : get b row col <> EMPTY).
      { intros He. rewrite <- He in E. rewrite set_same in E by auto.
        rewrite (hasUniqueSolution_correct _ Hb) in Hu. congruence. }
      rewrite set_restore by auto.
      destruct (IH b (setb (setb m row col false) row col true) Hin' Hb)
        as [b' [m' [E' [W [Wm [D [C [U F]]]]]]]]; auto.
      * apply wfTable_setb; auto. apply wfTable_setb; auto.
      * intros r c Hr' Hc'.
        destruct (Z.eq_dec r row) as [->|Nr];
          [destruct (Z.eq_dec c col) as [->|Nc]|].
        -- rewrite getb_setb_same; auto using wfTable_setb.
           symmetry. apply negb_true_iff, Z.eqb_neq. auto.
        -- rewrite !getb_setb_other; auto using wfTable_setb.
        -- rewrite !getb_setb_other; auto using wfTable_setb.
      * exists b', m'. conjs; auto.
        intros r c Hr' Hc' Hn. apply F; auto.
        intros Hx. apply Hn. right; auto.
Qed.

Lemma get_filled_empty r c :
  inRange r -> inRange c -> get (filled EMPTY) r c = EMPTY.
Proof.
  intros Hr Hc.
  assert (H : forallb (fun p => get (filled EMPTY) (fst p) (snd p) =? EMPTY)
                allCells = true) by reflexivity.
  rewrite forallb_forall in H.
  apply Z.eqb_eq. apply (H (r, c)). apply in_allCells; auto.
Qed.

(** A completion of the empty grid is a solved Sudoku. *)
Lemma completion_empty_legal sol :
  completion (filled EMPTY) sol -> wfGrid sol /\ completeGrid sol /\ legalGrid sol.
Proof.
  intros Hs. pose proof (completion_legal _ _ legalGrid_empty Hs).
  destruct Hs as [Hw [Hc _]]. auto.
Qed.

Lemma dugFrom_completion sol b :
  wfGrid sol -> completeGrid sol -> legalGrid sol -> dugFrom sol b ->
  completion b sol.
Proof.
  intros Hw Hc Hl Hd. split; [auto|split; [auto|split]].
  - intros r c Hr Hcc Hne. destruct (Hd r c Hr Hcc); [contradiction|auto].
  - intros r c Hr Hcc _. apply Hl; auto.
Qed.

Lemma length_one_eq {A} (l : list A) a b :
  length l = 1%nat -> In a l -> In b l -> a = b.
Proof.
  destruct l as [|x [|y l]]; simpl; try discriminate.
  intros _ [<-|[]] [<-|[]]. reflexivity.
Qed.

(** On a board that passes the uniqueness check, all completions coincide. *)
Lemma unique_completion b s1 s2 :
  wfGrid b -> hasUniqueSolution b = Some true ->
  completion b s1 -> completion b s2 -> s1 = s2.
Proof.
  intros Hb Hu H1 H2. rewrite (hasUniqueSolution_correct _ Hb) in Hu.
  inversion Hu as [E]. apply Nat.eqb_eq in E.
  apply (length_one_eq (completions b)); auto; apply completions_spec; auto.
Qed.

Lemma in_firstn {A} n (l : list A) x : In x (firstn n l) -> In x l.
Proof.
  intros H. rewrite <- (firstn_skipn n l). apply in_or_app. auto.
Qed.

Lemma createPuzzle_correct d game :
  exists game1 b' m' rng',
    generateSolution game = Some (true, game1) /\
    createPuzzle d game =
      Some (Returned tt (mkGame b' (solution game1) m' rng')) /\
    completion (filled EMPTY) (solution game1) /\
    wfGrid b' /\ wfTable m' /\ dugFrom (solution game1) b' /\
    cluesMarked b' m' /\
    hasUniqueSolution b' = Some true /\
    (forall r c, inRange r -> inRange c -> ~ In (r, c) (visited d game1) ->
       get b' r c = get (solution game1) r c).
Proof.
  unfold createPuzzle, visited, targetClues, shuffledPositions.
  destruct (generateSolution_correct game) as [sol [rng0 [E0 Hsol]]].
  rewrite E0. exists (mkGame (board game) sol (fixed game) rng0).
  cbn [solution rng].
  pose proof (shuffle_perm allCells rng0) as Hp.
  destruct (shuffle allCells rng0) as [positions rng1]. cbn [fst snd] in *.
  destruct (uniform_int 0 5 rng1) as [offset rng2]. cbn [fst snd].
  destruct (completion_empty_legal sol Hsol) as [Hw [Hc Hl]].
  destruct (removeCells_correct sol
              (firstn (Z.to_nat (SIZE * SIZE - (clues d + offset))) positions)
              sol (filled true))
    as [b' [m' [E [W [Wm [D [C [U F]]]]]]]]; auto.
  - intros p Hin. apply in_firstn in Hin. apply (Permutation_in _ Hp); auto.
  - apply wfTable_filled.
  - intros r c Hr Hcc. auto.
  - intros r c Hr Hcc. rewrite getb_filled_true by auto.
    symmetry. apply negb_true_iff, Z.eqb_neq. apply Hc; auto.
  - rewrite (hasUniqueSolution_correct _ Hw), completions_complete by auto.
    reflexivity.
  - rewrite E. exists b', m', rng2. conjs; auto.
Qed.

Lemma createPuzzle_inv d game game' :
  createPuzzle d game = Some (Returned tt game') ->
  exists game1,
    generateSolution game = Some (true, game1) /\
    solution game' = solution game1 /\
    completion (filled EMPTY) (solution game') /\
    wfGrid (board game') /\ wfTable (fixed game') /\
    dugFrom (solution game') (board game') /\
    cluesMarked (board game') (fixed game') /\
    hasUniqueSolution (board game') = Some true /\
    (forall r c, inRange r -> inRange c -> ~ In (r, c) (visited d game1) ->
       get (board game') r c = get (solution game') r c).
Proof.
  intros H.
  destruct (createPuzzle_correct d game)
    as [game1 [b' [m' [rng' [G [E [Hs [W [Wm [D [C [U F]]]]]]]]]]]].
  rewrite E in H. inversion H; subst. cbn [board solution fixed].
  exists game1. conjs; auto.
Qed.

(** ** Counting clues *)

Lemma NoDup_app_disjoint {A} (l1 l2 : list A) x :
  NoDup (l1 ++ l2) -> In x l1 -> In x l2 -> False.
Proof.
  induction l1 as [|a l1 IH]; simpl; intros Hnd H1 H2; [auto|].
  inversion Hnd; subst. destruct H1 as [->|H1].
  - apply H3. apply in_or_app; auto.
  - apply IH; auto.
Qed.

Lemma countFilled_lower b (l : list (Z * Z)) :
  NoDup l ->
  (forall r c, In (r, c) l -> inRange r /\ inRange c /\ get b r c <> EMPTY) ->
  (length l <= countFilled b)%nat.
Proof.
  intros Hnd H. unfold countFilled. apply NoDup_incl_length; auto.
  intros [r c] Hin. destruct (H r c Hin) as [Hr [Hc Hne]].
  apply filter_In. split; [apply in_allCells; auto|].
  simpl. apply negb_true_iff, Z.eqb_neq. auto.
Qed.

Lemma countFilled_upper b : (countFilled b <= Z.to_nat (SIZE * SIZE))%nat.
Proof.
  unfold countFilled. rewrite <- allCells_length. apply filter_length_le.
Qed.

Lemma shuffledPositions_perm game1 : Permutation (shuffledPositions game1) allCells.
Proof. apply shuffle_perm. Qed.

Lemma targetClues_range d game1 : clues d <= targetClues d game1 <= clues d + 5.
Proof.
  unfold targetClues.
  pose proof (uniform_int_range 0 5 (snd (shuffle allCells (rng game1)))). lia.
Qed.

Lemma clues_range d : 20 <= clues d <= 35.
Proof. destruct d; simpl; lia. Qed.

(** The positions the removal loop does not reach are [targetClues] many. *)
Lemma unvisited_count d game1 b :
  (forall r c, inRange r -> inRange c -> ~ In (r, c) (visited d game1) ->
     get b r c <> EMPTY) ->
  targetClues d game1 <= Z.of_nat (countFilled b).
Proof.
  intros H.
  pose proof (shuffledPositions_perm game1) as Hp.
  pose proof (targetClues_range d game1) as Ht.
  pose proof (clues_range d) as Hd.
  set (n := Z.to_nat (SIZE * SIZE - targetClues d game1)) in *.
  assert (Hnd : NoDup (shuffledPositions game1)).
  { apply (Permutation_NoDup (Permutation_sym Hp)). apply NoDup_allCells. }
  assert (Hlen : length (shuffledPositions game1) = Z.to_nat (SIZE * SIZE)).
  { rewrite (Permutation_length Hp). apply allCells_length. }
  assert (L : (length (skipn n (shuffledPositions game1)) <= countFilled b)%nat).
  { apply countFilled_lower.
    - rewrite <- (firstn_skipn n) in Hnd. apply NoDup_app_remove_l in Hnd. auto.
    - intros r c Hin.
      assert (Hall : In (r, c) allCells).
      { apply (Permutation_in _ Hp). rewrite <- (firstn_skipn n).
        apply in_or_app. auto. }
      apply in_allCells in Hall. destruct Hall as [Hr Hc]. conjs; auto.
      apply H; auto. unfold visited. fold n. intros Hf.
      rewrite <- (firstn_skipn n) in Hnd.
      apply (NoDup_app_disjoint _ _ _ Hnd Hf Hin). }
  rewrite length_skipn, Hlen in L. unfold n, SIZE in *. lia.
Qed.

(** ** A concrete run *)

Lemma sample_run :
  createPuzzle EXPERT (newGame []) = Some (Returned tt samplePuzzle).
Proof. vm_compute. reflexivity. Qed.

(** ** Generated puzzles have exactly one solution *)

(** [createPuzzle] never throws and never runs out of recursion depth. *)
Lemma createPuzzle_returns d game :
  exists game', createPuzzle d game = Some (Returned tt game').
Proof.
  destruct (createPuzzle_correct d game)
    as [game1 [b' [m' [rng' [_ [E _]]]]]]. eauto.
Qed.

(** C1.  For every difficulty and every generator, when [createPuzzle]
    returns (instead of throwing the generation failure), counting the
    solutions of the resulting board with limit 2 gives exactly 1, so the
    uniqueness check answers true; and the board has exactly one legal
    completion, the stored reference solution. *)
Theorem createPuzzle_unique_solution d game game' :
  createPuzzle d game = Some (Returned tt game') ->
  (exists tr, countSolutions (board game') 0 2 = Some (board game', 1, tr)) /\
  hasUniqueSolution (board game') = Some true /\
  (forall s, legalCompletion (board game') s <-> s = solution game').
Proof.
  intros H. destruct (createPuzzle_inv d game game' H)
    as [game1 [_ [_ [Hs [W [_ [D [_ [U _]]]]]]]]].
  destruct (completion_empty_legal _ Hs) as [Hw [Hc Hl]].
  conjs; auto.
  - destruct (countSolutions_correct (board game') 0 2 W) as [tr E].
    exists tr. rewrite E.
    rewrite (hasUniqueSolution_correct _ W) in U. inversion U as [L].
    apply Nat.eqb_eq in L. rewrite L. reflexivity.
  - intros s. split.
    + intros Hleg. apply (unique_completion (board game')); auto.
      * apply legalCompletion_completion; auto.
      * apply dugFrom_completion; auto.
    + intros ->. split; [auto|split; [auto|split; auto]].
      intros r c Hr Hcc Hne. destruct (D r c Hr Hcc); [contradiction|auto].
Qed.

Lemma createPuzzle_unique_solution_witness :
  createPuzzle EXPERT (newGame []) = Some (Returned tt samplePuzzle) /\
  ((exists tr, countSolutions (board samplePuzzle) 0 2
                 = Some (board samplePuzzle, 1, tr)) /\
   hasUniqueSolution (board samplePuzzle) = Some true /\
   (forall s, legalCompletion (board samplePuzzle) s <-> s = solution samplePuzzle)).
Proof.
  split.
  - vm_compute. reflexivity.
  - apply (createPuzzle_unique_solution EXPERT (newGame [])).
    vm_compute. reflexivity.
Defined.

(** ** Hints for one cell *)

(** The four answers of [getHintForCell], in the order the code tests. *)
Lemma getHintForCell_cases game r c :
  (~ (inRange r /\ inRange c) /\ getHintForCell game r c = InvalidPosition)
  \/ (inRange r /\ inRange c /\ get (board game) r c <> EMPTY /\
      getHintForCell game r c = AlreadyFilled)
  \/ (inRange r /\ inRange c /\ get (board game) r c = EMPTY /\
      getb (fixed game) r c = true /\ getHintForCell game r c = FixedCell)
  \/ (inRange r /\ inRange c /\ get (board game) r c = EMPTY /\
      getb (fixed game) r c = false /\
      getHintForCell game r c = mkMove r c (get (solution game) r c)).
Proof.
  unfold getHintForCell, inRange, SIZE.
  destruct ((r <? 0) || (r >=? 9) || (c <? 0) || (c >=? 9)) eqn:E.
  - left. split; auto.
    rewrite !orb_true_iff in E. lia.
  - rewrite !orb_false_iff in E. right.
    destruct (get (board game) r c =? EMPTY) eqn:Eb; simpl.
    + apply Z.eqb_eq in Eb. right.
      destruct (getb (fixed game) r c) eqn:Ef.
      * left. conjs; auto; lia.
      * right. conjs; auto; lia.
    + apply Z.eqb_neq in Eb. left. conjs; auto; lia.
Qed.

(** In a game whose mask marks exactly the filled cells, as every generated
    puzzle has it, no cell is answered with [FixedCell]: a clue is reported as
    already filled. *)
Lemma getHintForCell_never_fixed game r c :
  cluesMarked (board game) (fixed game) -> getHintForCell game r c <> FixedCell.
Proof.
  intros Hm.
  destruct (getHintForCell_cases game r c)
    as [[_ E]|[[_ [_ [_ E]]]|[[Hr [Hc [He [Hf _]]]]|[Hr [_ [_ [_ E]]]]]]].
  - rewrite E. discriminate.
  - rewrite E. discriminate.
  - rewrite (Hm r c Hr Hc), He in Hf. discriminate.
  - rewrite E. unfold FixedCell, inRange in *. intros K. inversion K. lia.
Qed.

Lemma getHintForCell_generated_clue d game game' r c :
  createPuzzle d game = Some (Returned tt game') ->
  inRange r -> inRange c -> getb (fixed game') r c = true ->
  getHintForCell game' r c = AlreadyFilled.
Proof.
  intros H Hr Hc Hf. destruct (createPuzzle_inv d game game' H)
    as [game1 [_ [_ [_ [_ [_ [_ [C _]]]]]]]].
  rewrite (C r c Hr Hc) in Hf. apply negb_true_iff, Z.eqb_neq in Hf.
  destruct (getHintForCell_cases game' r c)
    as [[N _]|[[_ [_ [_ E]]]|[[_ [_ [He _]]]|[_ [_ [He _]]]]]];
    auto; try contradiction. exfalso. auto.
Qed.

(** C2.  On the generated puzzle [samplePuzzle] the cell at row 7, column 0
    is a clue (its fixed flag is set, it holds 5), yet [getHintForCell]
    answers [AlreadyFilled] (value -2) and not [FixedCell] (value -3): the
    test for a filled cell comes before the test of the fixed flag. *)
Theorem getHintForCell_clue_reported_filled :
  createPuzzle EXPERT (newGame []) = Some (Returned tt samplePuzzle) /\
  getb (fixed samplePuzzle) 7 0 = true /\
  get (board samplePuzzle) 7 0 = 5 /\
  getHintForCell samplePuzzle 7 0 = AlreadyFilled /\
  getHintForCell samplePuzzle 7 0 <> FixedCell.
Proof.
  split; [exact sample_run|]. vm_compute. conjs; auto. discriminate.
Qed.

(** ** The constraint checker *)

(** C3.  [isValidMove] answers true exactly when the row and the column are
    inside [0,9), the value is one of 1..9 and no other cell of the same row,
    column or 3x3 box holds the value; so it answers false, without reading
    the board, for any argument out of range.  The box of [(row, col)] is the
    block with origin [(row/3*3, col/3*3)]: by [box_range] its rows are the
    [r'] with [r' / 3 = row / 3], and likewise its columns. *)
Theorem isValidMove_spec board row col value :
  isValidMove board row col value = true <->
  inRange row /\ inRange col /\ 1 <= value <= SIZE /\
  noConflict board row col value.
Proof.
  unfold isValidMove.
  destruct ((row <? 0) || (row >=? SIZE) || (col <? 0) || (col >=? SIZE)
            || (value <? 1) || (value >? SIZE)) eqn:E.
  - rewrite !orb_true_iff in E. unfold inRange. split; [discriminate|].
    intros [Hr [Hc [Hv _]]]. lia.
  - rewrite !orb_false_iff in E.
    assert (Hr : inRange row) by (unfold inRange; lia).
    assert (Hc : inRange col) by (unfold inRange; lia).
    rewrite isValidInGrid_spec by auto. split; [|tauto].
    intros Hn. conjs; auto; lia.
Qed.

(** ** The solver *)

Lemma conflictGrid_no_legalCompletion s : ~ legalCompletion conflictGrid s.
Proof.
  intros [_ [_ [He Hl]]].
  assert (R8 : inRange 8) by (unfold inRange, SIZE; lia).
  assert (R6 : inRange 6) by (unfold inRange, SIZE; lia).
  assert (E88 : get s 8 8 = 5) by (apply (He 8 8 R8 R8); vm_compute; discriminate).
  assert (E86 : get s 8 6 = 5) by (apply (He 8 6 R8 R6); vm_compute; discriminate).
  destruct (Hl 8 8 R8 R8) as [_ Hn]; [rewrite E88; discriminate|].
  apply (Hn 8 6 R8 R6); [|congruence].
  unfold peers. split; [right; lia|left; reflexivity].
Qed.

(** C4, as stated, fails on a grid whose filled cells already clash: on
    [conflictGrid] the solver returns true, and the grid it leaves is complete
    but has two 5s in row 8. *)
Lemma solveBacktrack_true_not_legal :
  wfGrid conflictGrid /\
  solveBacktrack conflictGrid [] = Some (true, set solvedGrid 8 8 5, []) /\
  completeGrid (set solvedGrid 8 8 5) /\
  get (set solvedGrid 8 8 5) 8 6 = 5 /\
  get (set solvedGrid 8 8 5) 8 8 = 5 /\
  ~ legalGrid (set solvedGrid 8 8 5).
Proof.
  conjs.
  - apply wfGridb_spec. reflexivity.
  - vm_compute. reflexivity.
  - apply isComplete_spec. reflexivity.
  - reflexivity.
  - reflexivity.
  - intros H. apply legalGridb_spec in H. vm_compute in H. discriminate.
Qed.

(** C4, amended.  On every 9x9 grid the solver returns.  If it returns false
    the grid is cell for cell what it was, and the grid has no completion.  If
    it returns true the grid is complete, keeps every cell that was filled,
    holds in every cell that was empty a digit 1..9 that no peer holds, and is
    a legal assignment whenever the initially filled cells were legal. *)
Theorem solveBacktrack_spec g rng0 :
  wfGrid g ->
  exists ok g' rng',
    solveBacktrack g rng0 = Some (ok, g', rng') /\
    (ok = false ->
       g' = g /\ (forall s, ~ completion g s) /\
       (forall s, ~ legalCompletion g s)) /\
    (ok = true ->
       completeGrid g' /\ extends g g' /\
       (forall r c, inRange r -> inRange c -> get g r c = EMPTY -> legalAt g' r c) /\
       (legalGrid g -> legalGrid g')).
Proof.
  intros Hg.
  destruct (solveBacktrack_correct g rng0 Hg) as [[[ok g'] rng'] [E S]].
  exists ok, g', rng'. split; [auto|]. destruct ok; simpl in S.
  - split; [discriminate|]. intros _.
    pose proof (completion_legal g g') as L.
    destruct S as [Hw [Hc [He Hl]]]. conjs; auto.
    intros Hleg. apply L; auto. split; [auto|split; [auto|split; auto]].
  - split; [|discriminate]. intros _. destruct S as [-> Hno]. conjs; auto.
    intros s Hs. apply (Hno s). apply legalCompletion_completion; auto.
Qed.

Lemma solveBacktrack_spec_witness :
  wfGrid (board samplePuzzle) /\
  exists ok g' rng',
    solveBacktrack (board samplePuzzle) [] = Some (ok, g', rng') /\
    (ok = false ->
       g' = board samplePuzzle /\
       (forall s, ~ completion (board samplePuzzle) s) /\
       (forall s, ~ legalCompletion (board samplePuzzle) s)) /\
    (ok = true ->
       completeGrid g' /\ extends (board samplePuzzle) g' /\
       (forall r c, inRange r -> inRange c ->
          get (board samplePuzzle) r c = EMPTY -> legalAt g' r c) /\
       (legalGrid (board samplePuzzle) -> legalGrid g')).
Proof.
  split.
  - apply wfGridb_spec. reflexivity.
  - apply (solveBacktrack_spec (board samplePuzzle) []).
    apply wfGridb_spec. reflexivity.
Defined.

(** C8.  On a grid without empty cells the solver returns true at once: the
    grid and the generator are what they were. *)
Theorem solveBacktrack_complete_grid g rng0 :
  completeGrid g -> solveBacktrack g rng0 = Some (true, g, rng0).
Proof.
  intros Hc. apply findBestCell_none in Hc.
  unfold solveBacktrack, maxDepth. cbn [solveBacktrack_fuel].
  rewrite Hc. reflexivity.
Qed.

Lemma solveBacktrack_complete_grid_witness :
  completeGrid solvedGrid /\
  solveBacktrack solvedGrid [3; 1; 4] = Some (true, solvedGrid, [3; 1; 4]).
Proof.
  split.
  - apply isComplete_spec. reflexivity.
  - apply (solveBacktrack_complete_grid solvedGrid [3; 1; 4]).
    apply isComplete_spec. reflexivity.
Defined.

(** C10.  On every 9x9 grid and for every generator the solver returns, and
    whether it returns true or false every cell that held a value at entry
    holds the same value at exit. *)
Theorem solveBacktrack_keeps_filled g rng0 :
  wfGrid g ->
  exists ok g' rng',
    solveBacktrack g rng0 = Some (ok, g', rng') /\
    forall r c, inRange r -> inRange c -> get g r c <> EMPTY ->
      get g' r c = get g r c.
Proof.
  intros Hg.
  destruct (solveBacktrack_correct g rng0 Hg) as [[[ok g'] rng'] [E S]].
  exists ok, g', rng'. split; [auto|]. destruct ok; simpl in S.
  - destruct S as [_ [_ [He _]]]. exact He.
  - destruct S as [-> _]. auto.
Qed.

Lemma solveBacktrack_keeps_filled_witness :
  wfGrid (board samplePuzzle) /\
  exists ok g' rng',
    solveBacktrack (board samplePuzzle) [2; 7; 1; 8] = Some (ok, g', rng') /\
    forall r c, inRange r -> inRange c -> get (board samplePuzzle) r c <> EMPTY ->
      get g' r c = get (board samplePuzzle) r c.
Proof.
  split.
  - apply wfGridb_spec. reflexivity.
  - apply (solveBacktrack_keeps_filled (board samplePuzzle) [2; 7; 1; 8]).
    apply wfGridb_spec. reflexivity.
Defined.

(** Auto-solving the live board leaves every filled cell, hence every clue,
    and the fixed mask as they were. *)
Lemma solvePuzzle_keeps_filled game :
  wfGrid (board game) ->
  exists ok game',
    solvePuzzle game = Some (ok, game') /\
    fixed game' = fixed game /\ solution game' = solution game /\
    extends (board game) (board game').
Proof.
  intros Hg. unfold solvePuzzle.
  destruct (solveBacktrack_keeps_filled (board game) (rng game) Hg)
    as [ok [g' [rng' [E K]]]].
  rewrite E. eexists _, _. split; [reflexivity|]. simpl. auto.
Qed.

(** ** The uniqueness counter *)

(** C5, as stated, fails on a grid whose filled cells already clash:
    [conflictGrid] has no legal completion, yet the count with limit 2 is 1
    and the uniqueness check answers true. *)
Lemma countSolutions_counts_illegal :
  wfGrid conflictGrid /\
  (forall s, ~ legalCompletion conflictGrid s) /\
  countSolutions conflictGrid 0 2
    = Some (conflictGrid, 1, [mkAssignment 0 0 9 0]) /\
  hasUniqueSolution conflictGrid = Some true.
Proof.
  conjs.
  - apply wfGridb_spec. reflexivity.
  - apply conflictGrid_no_legalCompletion.
  - vm_compute. reflexivity.
  - vm_compute. reflexivity.
Qed.

(** C5, amended.  On every 9x9 grid and for every limit >= 0 the counter
    returns, leaves the grid as it was, and the count it reaches from 0 is
    between 0 and the limit: it is the minimum of the limit and the number of
    completions of the grid, the ways to fill its empty cells with digits that
    clash with no peer ([completions] lists them without repetition).  When the
    filled cells of the grid are legal these are exactly the legal complete
    grids that keep them.  No assignment is tried once the count has reached
    the limit, and [hasUniqueSolution] answers true exactly when the count for
    limit 2 is 1. *)
Theorem countSolutions_spec g limit :
  wfGrid g -> 0 <= limit ->
  exists count tr,
    countSolutions g 0 limit = Some (g, count, tr) /\
    0 <= count <= limit /\
    count = Z.min limit (Z.of_nat (length (completions g))) /\
    NoDup (completions g) /\
    (forall s, In s (completions g) <-> completion g s) /\
    (legalGrid g -> forall s, In s (completions g) <-> legalCompletion g s) /\
    belowLimit limit tr /\
    (exists count2 tr2,
       countSolutions g 0 2 = Some (g, count2, tr2) /\
       count2 = Z.min 2 (Z.of_nat (length (completions g))) /\
       hasUniqueSolution g = Some (count2 =? 1)).
Proof.
  intros Hg Hl.
  destruct (countSolutions_correct g 0 limit Hg) as [tr E].
  exists (capped limit 0 (Z.of_nat (length (completions g)))), tr.
  assert (C : capped limit 0 (Z.of_nat (length (completions g)))
              = Z.min limit (Z.of_nat (length (completions g)))).
  { unfold capped. destruct (0 >=? limit) eqn:E0; lia. }
  conjs; auto.
  - lia.
  - lia.
  - apply completions_NoDup; auto.
  - intros s. apply completions_spec; auto.
  - intros Hleg s. rewrite completions_spec by auto. split.
    + apply completion_legalCompletion; auto.
    + apply legalCompletion_completion.
  - apply (countSolutions_fuel_trace limit maxDepth g 0 [] _ (Forall_nil _) E).
  - destruct (countSolutions_correct g 0 2 Hg) as [tr2 E2].
    exists (capped 2 0 (Z.of_nat (length (completions g)))), tr2.
    split; [exact E2|]. split; [unfold capped; simpl; reflexivity|].
    unfold hasUniqueSolution. rewrite E2. reflexivity.
Qed.

Lemma countSolutions_spec_witness :
  wfGrid (board samplePuzzle) /\ 0 <= 2 /\
  exists count tr,
    countSolutions (board samplePuzzle) 0 2 = Some (board samplePuzzle, count, tr) /\
    0 <= count <= 2 /\
    count = Z.min 2 (Z.of_nat (length (completions (board samplePuzzle)))) /\
    NoDup (completions (board samplePuzzle)) /\
    (forall s, In s (completions (board samplePuzzle))
               <-> completion (board samplePuzzle) s) /\
    (legalGrid (board samplePuzzle) ->
     forall s, In s (completions (board samplePuzzle))
               <-> legalCompletion (board samplePuzzle) s) /\
    belowLimit 2 tr /\
    (exists count2 tr2,
       countSolutions (board samplePuzzle) 0 2
         = Some (board samplePuzzle, count2, tr2) /\
       count2 = Z.min 2 (Z.of_nat (length (completions (board samplePuzzle)))) /\
       hasUniqueSolution (board samplePuzzle) = Some (count2 =? 1)).
Proof.
  split; [|split].
  - apply wfGridb_spec. reflexivity.
  - lia.
  - apply (countSolutions_spec (board samplePuzzle) 2).
    + apply wfGridb_spec. reflexivity.
    + lia.
Defined.

(** ** Player moves *)

(** C6.  A move is refused when the position is outside the board, the cell
    is fixed, the value is outside [0,9], or the value is a digit that a peer
    of the cell already holds.  A refused move makes [makeMove] return false
    with the whole object (board, solution, mask, generator) as it was; any
    other move returns true and writes the value in that one cell. *)
Theorem makeMove_spec game row col value :
  (moveRefused game row col value /\
   makeMove game row col value = (false, game))
  \/
  (~ moveRefused game row col value /\
   makeMove game row col value
     = (true, withBoard game (set (board game) row col value))).
Proof.
  unfold makeMove, makeMove_try, moveRefused.
  destruct ((row <? 0) || (row >=? SIZE) || (col <? 0) || (col >=? SIZE)) eqn:E.
  { left. split; auto. left. unfold inRange.
    rewrite !orb_true_iff in E. lia. }
  rewrite !orb_false_iff in E.
  assert (Hr : inRange row) by (unfold inRange; lia).
  assert (Hc : inRange col) by (unfold inRange; lia).
  destruct (getb (fixed game) row col) eqn:Ef.
  { left. split; auto. }
  destruct ((value <? 0) || (value >? SIZE)) eqn:Ev.
  { left. split; auto. right. right. left. rewrite orb_true_iff in Ev. lia. }
  rewrite orb_false_iff in Ev.
  destruct (value =? EMPTY) eqn:E0.
  { apply Z.eqb_eq in E0. right. subst value. split; auto.
    intros [N|[N|[N|[N _]]]]; try tauto; try discriminate.
    unfold EMPTY, SIZE in N. lia. }
  apply Z.eqb_neq in E0.
  destruct (isValidMove (board game) row col value) eqn:Em; simpl.
  - right. split; auto. apply isValidMove_spec in Em.
    intros [N|[N|[N|[_ N]]]]; try tauto; try discriminate. lia.
  - left. split; auto. right. right. right. split; auto.
    intros Hn. assert (isValidMove (board game) row col value = true).
    { apply isValidMove_spec. conjs; auto; unfold EMPTY in *; lia. }
    congruence.
Qed.

(** ** Clearing a clue and solving again *)

(** C7, as stated, fails: [samplePuzzle] is generated by [createPuzzle], the
    cell at row 1, column 6 is one of its clues, and after clearing that cell
    the solver, with the generator that delivers 0, succeeds with a grid that
    is not the reference solution. *)
Lemma resolve_after_clearing_differs :
  createPuzzle EXPERT (newGame []) = Some (Returned tt samplePuzzle) /\
  getb (fixed samplePuzzle) 1 6 = true /\
  get (board samplePuzzle) 1 6 = 9 /\
  solveBacktrack (set (board samplePuzzle) 1 6 EMPTY) []
    = Some (true, otherSolution, []) /\
  otherSolution <> solution samplePuzzle.
Proof.
  split; [exact sample_run|].
  conjs; try (vm_compute; reflexivity). discriminate.
Qed.

Lemma dugFrom_legal sol b :
  legalGrid sol -> completeGrid sol -> dugFrom sol b -> legalGrid b.
Proof.
  intros Hl Hc Hd r c Hr Hcc Hne.
  destruct (Hd r c Hr Hcc) as [E|E]; [contradiction|].
  destruct (Hl r c Hr Hcc (Hc r c Hr Hcc)) as [Hv Hn].
  unfold legalAt. rewrite E. split; auto.
  intros r' c' Hr' Hc' Hp. destruct (Hd r' c' Hr' Hc') as [E'|E'].
  - rewrite E'. unfold EMPTY. lia.
  - rewrite E'. apply Hn; auto.
Qed.

(** Clearing any cell of a generated puzzle and solving again succeeds, for
    every generator, with some solved Sudoku that keeps the remaining clues. *)
Lemma resolve_after_clearing_solves d game game' r c rng0 :
  createPuzzle d game = Some (Returned tt game') ->
  inRange r -> inRange c ->
  exists g' rng',
    solveBacktrack (set (board game') r c EMPTY) rng0 = Some (true, g', rng') /\
    legalCompletion (set (board game') r c EMPTY) g'.
Proof.
  intros H Hr Hc.
  destruct (createPuzzle_inv d game game' H)
    as [game1 [_ [_ [Hs [W [_ [D _]]]]]]].
  destruct (completion_empty_legal _ Hs) as [Hw [Hcomp Hl]].
  pose proof (wfGrid_set (board game') r c EMPTY W Hr) as W1.
  assert (D1 : dugFrom (solution game') (set (board game') r c EMPTY)).
  { intros r' c' Hr' Hc'. rewrite get_set by auto.
    destruct ((r' =? r) && (c' =? c)); auto. }
  destruct (solveBacktrack_correct _ rng0 W1) as [[[ok g'] rng'] [E S]].
  rewrite E. destruct ok; simpl in S.
  - exists g', rng'. split; auto.
    apply completion_legalCompletion; auto.
    apply (dugFrom_legal (solution game')); auto.
  - destruct S as [_ Hno]. exfalso.
    apply (Hno (solution game')). apply dugFrom_completion; auto.
Qed.

(** C7, amended.  For every board and solution produced by [createPuzzle]
    and every clue cell whose removal leaves a board that still passes the
    uniqueness check, clearing the cell and running the solver succeeds and
    reproduces the reference solution exactly, whatever the generator
    delivers. *)
Theorem resolve_after_clearing_clue d game game' r c rng0 :
  createPuzzle d game = Some (Returned tt game') ->
  inRange r -> inRange c ->
  getb (fixed game') r c = true ->
  hasUniqueSolution (set (board game') r c EMPTY) = Some true ->
  exists rng',
    solveBacktrack (set (board game') r c EMPTY) rng0
      = Some (true, solution game', rng').
Proof.
  intros H Hr Hc _ Hu.
  destruct (createPuzzle_inv d game game' H)
    as [game1 [_ [_ [Hs [W [_ [D _]]]]]]].
  destruct (completion_empty_legal _ Hs) as [Hw [Hcomp Hl]].
  pose proof (wfGrid_set (board game') r c EMPTY W Hr) as W1.
  assert (Hsol : completion (set (board game') r c EMPTY) (solution game')).
  { apply dugFrom_completion; auto. intros r' c' Hr' Hc'.
    rewrite get_set by auto. destruct ((r' =? r) && (c' =? c)); auto. }
  destruct (solveBacktrack_correct _ rng0 W1) as [[[ok g'] rng'] [E S]].
  rewrite E. destruct ok; simpl in S.
  - exists rng'. repeat f_equal.
    apply (unique_completion (set (board game') r c EMPTY)); auto.
  - destruct S as [_ Hno]. exfalso. apply (Hno _ Hsol).
Qed.

Lemma resolve_after_clearing_clue_witness :
  createPuzzle EXPERT (newGame []) = Some (Returned tt samplePuzzle) /\
  inRange 7 /\ inRange 4 /\
  getb (fixed samplePuzzle) 7 4 = true /\
  hasUniqueSolution (set (board samplePuzzle) 7 4 EMPTY) = Some true /\
  exists rng',
    solveBacktrack (set (board samplePuzzle) 7 4 EMPTY) [5; 3; 8]
      = Some (true, solution samplePuzzle, rng').
Proof.
  assert (R7 : inRange 7) by (unfold inRange, SIZE; lia).
  assert (R4 : inRange 4) by (unfold inRange, SIZE; lia).
  assert (F : getb (fixed samplePuzzle) 7 4 = true) by reflexivity.
  assert (U : hasUniqueSolution (set (board samplePuzzle) 7 4 EMPTY) = Some true)
    by (vm_compute; reflexivity).
  split; [vm_compute; reflexivity|].
  split; [exact R7|]. split; [exact R4|]. split; [exact F|]. split; [exact U|].
  apply (resolve_after_clearing_clue EXPERT (newGame []) samplePuzzle 7 4
           [5; 3; 8]);
    [vm_compute; reflexivity | exact R7 | exact R4 | exact F | exact U].
Defined.

(** ** Clue count of an Expert puzzle *)

(** C9, as stated, fails: the Expert puzzle generated from the generator that
    delivers 0 (target 20 clues, 61 positions visited) keeps 38 clues, more
    than 30. *)
Lemma expert_puzzle_38_clues :
  generateSolution (newGame []) = Some (true, sampleGenerated) /\
  targetClues EXPERT sampleGenerated = 20 /\
  createPuzzle EXPERT (newGame []) = Some (Returned tt samplePuzzle) /\
  countFilled (board samplePuzzle) = 38%nat /\
  ~ (20 <= Z.of_nat (countFilled (board samplePuzzle)) <= 30).
Proof.
  assert (E : countFilled (board samplePuzzle) = 38%nat) by reflexivity.
  split; [vm_compute; reflexivity|].
  split; [reflexivity|].
  split; [exact sample_run|].
  split; [exact E|]. rewrite E. lia.
Qed.

(** C9, amended.  For every generator, generating an Expert puzzle returns a
    board that passes the uniqueness check.  The target clue count is 20 plus
    an offset in [0,5]; the removal loop visits only the first 81 - target
    shuffled positions, every other cell keeps the digit of the solution, so
    the number of filled cells is at least the target (hence at least 20) and
    at most 81; it may exceed the target, and 30, when removals are
    reverted. *)
Theorem createPuzzle_expert_clues game :
  exists game1 game',
    generateSolution game = Some (true, game1) /\
    createPuzzle EXPERT game = Some (Returned tt game') /\
    20 <= targetClues EXPERT game1 <= 25 /\
    Permutation (shuffledPositions game1) allCells /\
    (forall r c, inRange r -> inRange c ->
       ~ In (r, c) (firstn (Z.to_nat (81 - targetClues EXPERT game1))
                           (shuffledPositions game1)) ->
       get (board game') r c = get (solution game') r c /\
       get (board game') r c <> EMPTY) /\
    targetClues EXPERT game1 <= Z.of_nat (countFilled (board game')) <= 81 /\
    hasUniqueSolution (board game') = Some true.
Proof.
  destruct (createPuzzle_correct EXPERT game)
    as [game1 [b' [m' [rng' [G [E [Hs [W [Wm [D [C [U F]]]]]]]]]]]].
  exists game1, (mkGame b' (solution game1) m' rng'). cbn [board solution].
  destruct (completion_empty_legal _ Hs) as [Hw [Hc Hl]].
  assert (K : forall r c, inRange r -> inRange c ->
            ~ In (r, c) (visited EXPERT game1) ->
            get b' r c = get (solution game1) r c /\ get b' r c <> EMPTY).
  { intros r c Hr Hcc Hn. rewrite (F r c Hr Hcc Hn). split; auto. }
  conjs; auto.
  - pose proof (targetClues_range EXPERT game1). simpl in *. lia.
  - pose proof (targetClues_range EXPERT game1). simpl in *. lia.
  - apply shuffledPositions_perm.
  - apply unvisited_count. intros r c Hr Hcc Hn. apply K; auto.
  - pose proof (countFilled_upper b'). unfold SIZE in *. lia.
Qed.

(** ** Early-return loops *)

Lemma firstSome_some {A B} (f : A -> option B) l y :
  firstSome f l = Some y ->
  exists l1 x l2, l = l1 ++ x :: l2 /\ f x = Some y /\
                  forall x', In x' l1 -> f x' = None.
Proof.
  induction l as [|a l IH]; simpl; [discriminate|].
  destruct (f a) as [b|] eqn:E.
  - intros H. inversion H; subst. exists [], a, l. simpl. tauto.
  - intros H. destruct (IH H) as [l1 [x [l2 [-> [Hx Hn]]]]].
    exists (a :: l1), x, l2. conjs; auto.
    intros x' [<-|Hin]; auto.
Qed.

Lemma firstSome_in {A B} (f : A -> option B) l y :
  firstSome f l = Some y -> exists x, In x l /\ f x = Some y.
Proof.
  intros H. destruct (firstSome_some f l y H) as [l1 [x [l2 [-> [Hx _]]]]].
  exists x. split; auto. apply in_or_app. right. left. reflexivity.
Qed.

Lemma firstSome_none {A B} (f : A -> option B) l :
  firstSome f l = None <-> forall x, In x l -> f x = None.
Proof.
  induction l as [|a l IH]; simpl.
  - split; auto. intros _ x [].
  - destruct (f a) as [b|] eqn:E.
    + split; [discriminate|]. intros H. rewrite <- E. apply H. auto.
    + rewrite IH. split.
      * intros H x [<-|Hin]; auto.
      * intros H x Hin. apply H. auto.
Qed.

Lemma filter_map_swap {A B} (f : B -> bool) (g : A -> B) l :
  filter f (map g l) = map g (filter (fun x => f (g x)) l).
Proof.
  induction l as [|a l IH]; simpl; auto.
  destruct (f (g a)); simpl; rewrite IH; reflexivity.
Qed.

(** ** Candidate lists and the chosen cell *)

Lemma StronglySorted_zrange lo n : StronglySorted Z.lt (zrange lo n).
Proof.
  unfold zrange. generalize 0%nat as k. induction n as [|n IH]; intros k; simpl.
  - constructor.
  - constructor; [apply IH|]. apply Forall_forall. intros x Hx.
    apply in_map_iff in Hx. destruct Hx as [i [<- Hi]]. apply in_seq in Hi. lia.
Qed.

Lemma StronglySorted_filter {A} (R : A -> A -> Prop) (f : A -> bool) l :
  StronglySorted R l -> StronglySorted R (filter f l).
Proof.
  induction 1 as [|a l Hs IH Hall]; simpl; [constructor|].
  destruct (f a); auto. constructor; auto.
  apply Forall_forall. intros x Hx. apply filter_In in Hx.
  rewrite Forall_forall in Hall. apply Hall. tauto.
Qed.

Lemma isValidMove_noConflict board r c num :
  isValidMove board r c num = true <->
  inRange r /\ inRange c /\ 1 <= num <= SIZE /\ noConflict board r c num.
Proof.
  unfold isValidMove.
  destruct ((r <? 0) || (r >=? SIZE) || (c <? 0) || (c >=? SIZE)
            || (num <? 1) || (num >? SIZE)) eqn:E.
  - rewrite !orb_true_iff in E. unfold inRange. split; [discriminate|].
    intros [Hr [Hc [Hv _]]]. lia.
  - rewrite !orb_false_iff in E.
    assert (Hr : inRange r) by (unfold inRange; lia).
    assert (Hc : inRange c) by (unfold inRange; lia).
    rewrite isValidInGrid_spec by auto. split; [|tauto].
    intros Hn. conjs; auto; lia.
Qed.

Lemma findBestCell_from_min g cells m best r c :
  findBestCell_from g cells m best = Some (r, c) ->
  (best = Some (r, c) /\
   forall r' c', In (r', c') cells -> get g r' c' = EMPTY ->
     m <= candidateCount g r' c')
  \/
  (In (r, c) cells /\ get g r c = EMPTY /\ candidateCount g r c < m /\
   (candidateCount g r c = 1 \/
    forall r' c', In (r', c') cells -> get g r' c' = EMPTY ->
      candidateCount g r c <= candidateCount g r' c')).
Proof.
  unfold candidateCount.
  revert m best. induction cells as [|[r0 c0] rest IH]; intros m best H;
    simpl in H.
  - left. split; auto. intros r' c' [].
  - destruct (get g r0 c0 =? EMPTY) eqn:E.
    + apply Z.eqb_eq in E.
      destruct (Z.of_nat (length (getCandidates g r0 c0)) <? m) eqn:Em.
      * apply Z.ltb_lt in Em.
        destruct (Z.of_nat (length (getCandidates g r0 c0)) =? 1) eqn:E1.
        -- apply Z.eqb_eq in E1. inversion H; subst. right.
           conjs; simpl; auto.
        -- apply IH in H. right. destruct H as [[Hb Hall]|[Hin [He [Hlt Hmin]]]].
           ++ inversion Hb; subst. conjs; simpl; auto. right.
              intros r' c' [Hp|Hp] He'; [inversion Hp; subst; lia|auto].
           ++ conjs; simpl; auto; [lia|].
              destruct Hmin as [Hmin|Hmin]; auto. right.
              intros r' c' [Hp|Hp] He'; [inversion Hp; subst; lia|auto].
      * apply Z.ltb_ge in Em. apply IH in H.
        destruct H as [[Hb Hall]|[Hin [He [Hlt Hmin]]]].
        -- left. split; auto.
           intros r' c' [Hp|Hp] He'; [inversion Hp; subst; lia|auto].
        -- right. conjs; simpl; auto.
           destruct Hmin as [Hmin|Hmin]; auto. right.
           intros r' c' [Hp|Hp] He'; [inversion Hp; subst; lia|auto].
    + apply Z.eqb_neq in E. apply IH in H.
      destruct H as [[Hb Hall]|[Hin [He [Hlt Hmin]]]].
      * left. split; auto.
        intros r' c' [Hp|Hp] He'; [inversion Hp; subst; contradiction|auto].
      * right. conjs; simpl; auto.
        destruct Hmin as [Hmin|Hmin]; auto. right.
        intros r' c' [Hp|Hp] He'; [inversion Hp; subst; contradiction|auto].
Qed.

(** X1.  When [findBestCell] finds a cell, the cell is on the board and
    empty, and it has exactly one candidate or no empty cell of the grid has
    fewer candidates than it. *)
Theorem findBestCell_fewest_candidates g r c :
  findBestCell g = Some (r, c) ->
  inRange r /\ inRange c /\ get g r c = EMPTY /\
  (candidateCount g r c = 1 \/
   forall r' c', inRange r' -> inRange c' -> get g r' c' = EMPTY ->
     candidateCount g r c <= candidateCount g r' c').
Proof.
  intros H. apply findBestCell_from_min in H.
  destruct H as [[Hb _]|[Hin [He [_ Hmin]]]]; [discriminate|].
  apply in_allCells in Hin. destruct Hin as [Hr Hc]. conjs; auto.
  destruct Hmin as [Hmin|Hmin]; auto. right.
  intros r' c' Hr' Hc' He'. apply Hmin; auto. apply in_allCells; auto.
Qed.

Lemma findBestCell_fewest_candidates_witness :
  findBestCell (board samplePuzzle) = Some (0, 8) /\
  (inRange 0 /\ inRange 8 /\ get (board samplePuzzle) 0 8 = EMPTY /\
   (candidateCount (board samplePuzzle) 0 8 = 1 \/
    forall r' c', inRange r' -> inRange c' ->
      get (board samplePuzzle) r' c' = EMPTY ->
      candidateCount (board samplePuzzle) 0 8
        <= candidateCount (board samplePuzzle) r' c')).
Proof.
  split.
  - vm_compute. reflexivity.
  - apply (findBestCell_fewest_candidates (board samplePuzzle) 0 8).
    vm_compute. reflexivity.
Defined.

(** X2.  For a cell of the board, [getCandidates] lists in increasing order,
    each once, exactly the digits 1..9 that no other cell of the row, column
    or box of the cell holds. *)
Theorem getCandidates_sorted_legal g r c :
  inRange r -> inRange c ->
  StronglySorted Z.lt (getCandidates g r c) /\
  forall num, In num (getCandidates g r c) <->
              1 <= num <= SIZE /\ noConflict g r c num.
Proof.
  intros Hr Hc. split.
  - apply StronglySorted_filter, StronglySorted_zrange.
  - intros num. apply in_getCandidates; auto.
Qed.

Lemma getCandidates_sorted_legal_witness :
  inRange 4 /\ inRange 4 /\
  (StronglySorted Z.lt (getCandidates (board samplePuzzle) 4 4) /\
   forall num, In num (getCandidates (board samplePuzzle) 4 4) <->
               1 <= num <= SIZE /\ noConflict (board samplePuzzle) 4 4 num).
Proof.
  assert (R4 : inRange 4) by (unfold inRange, SIZE; lia).
  split; [exact R4|]. split; [exact R4|].
  apply (getCandidates_sorted_legal (board samplePuzzle) 4 4 R4 R4).
Defined.

(** ** Units: rows, columns and boxes *)

Lemma isUnit_rowCells r : inRange r -> isUnit (rowCells r).
Proof.
  intros Hr. unfold isUnit, rowCells. conjs.
  - rewrite length_map. reflexivity.
  - apply Injective_map_NoDup; [|apply NoDup_zrange]. intros a b E. congruence.
  - intros r0 c0 H. apply in_map_iff in H. destruct H as [c1 [E Hc]].
    inversion E; subst. apply in_upto in Hc. auto.
  - intros r0 c0 r1 c1 H0 H1 Hne.
    apply in_map_iff in H0, H1.
    destruct H0 as [x [E0 _]]. destruct H1 as [y [E1 _]].
    inversion E0; inversion E1; subst. split; auto.
Qed.

Lemma isUnit_colCells c : inRange c -> isUnit (colCells c).
Proof.
  intros Hc. unfold isUnit, colCells. conjs.
  - rewrite length_map. reflexivity.
  - apply Injective_map_NoDup; [|apply NoDup_zrange]. intros a b E. congruence.
  - intros r0 c0 H. apply in_map_iff in H. destruct H as [r1 [E Hr]].
    inversion E; subst. apply in_upto in Hr. auto.
  - intros r0 c0 r1 c1 H0 H1 Hne.
    apply in_map_iff in H0, H1.
    destruct H0 as [x [E0 _]]. destruct H1 as [y [E1 _]].
    inversion E0; inversion E1; subst. split; auto.
Qed.

Lemma in_boxCells boxR boxC r c :
  In (r, c) (boxCells boxR boxC) <->
  boxR * 3 <= r < boxR * 3 + 3 /\ boxC * 3 <= c < boxC * 3 + 3.
Proof.
  unfold boxCells. rewrite in_flat_map. split.
  - intros [r' [Hr' H]]. apply in_map_iff in H. destruct H as [c' [E Hc']].
    inversion E; subst. apply in_zrange in Hr', Hc'. simpl in *. lia.
  - intros [Hr Hc]. exists r. split.
    + apply in_zrange. simpl. lia.
    + apply in_map. apply in_zrange. simpl. lia.
Qed.

Lemma isUnit_boxCells boxR boxC :
  0 <= boxR < 3 -> 0 <= boxC < 3 -> isUnit (boxCells boxR boxC).
Proof.
  intros HR HC. unfold isUnit. conjs.
  - unfold boxCells. reflexivity.
  - unfold boxCells. apply NoDup_flat_map.
    + apply NoDup_zrange.
    + intros r _. apply Injective_map_NoDup; [|apply NoDup_zrange].
      intros a b E. congruence.
    + intros a b x _ _ Ha Hb. apply in_map_iff in Ha, Hb.
      destruct Ha as [c [<- _]]. destruct Hb as [c' [E _]]. congruence.
  - intros r c H. apply in_boxCells in H. unfold inRange, SIZE. lia.
  - intros r c r' c' H H' Hne. apply in_boxCells in H, H'.
    split; auto. right. right.
    split; Z.to_euclidean_division_equations; lia.
Qed.

(** In a legal grid without empty cells a unit holds every digit. *)
Lemma unit_has_digit s U d :
  legalGrid s -> completeGrid s -> isUnit U -> 1 <= d <= SIZE ->
  exists r c, In (r, c) U /\ get s r c = d.
Proof.
  intros Hl Hc [Hlen [Hnd [Hin Hp]]] Hd.
  set (vals := map (fun p => get s (fst p) (snd p)) U).
  assert (Hvnd : NoDup vals).
  { unfold vals. clear Hlen. induction U as [|[r c] U IH]; simpl; constructor.
    - intros H. apply in_map_iff in H. destruct H as [[r' c'] [E H']].
      simpl in E. inversion Hnd; subst.
      destruct (Hin r c (or_introl eq_refl)) as [Hr Hcc].
      destruct (Hin r' c' (or_intror H')) as [Hr' Hcc'].
      assert (Hne : r' <> r \/ c' <> c).
      { destruct (Z.eq_dec r' r); auto. destruct (Z.eq_dec c' c); auto.
        subst. contradiction. }
      destruct (Hl r c Hr Hcc (Hc r c Hr Hcc)) as [_ Hn].
      apply (Hn r' c' Hr' Hcc'); auto.
      apply Hp; simpl; auto.
    - inversion Hnd; subst. apply IH; auto.
      + intros r0 c0 H. apply Hin. right; auto.
      + intros r0 c0 r1 c1 K0 K1. apply Hp; right; auto. }
  assert (Hincl : incl vals (zrange 1 (Z.to_nat SIZE))).
  { intros v Hv. unfold vals in Hv. apply in_map_iff in Hv.
    destruct Hv as [[r c] [<- H]]. cbn [fst snd].
    destruct (Hin r c H) as [Hr Hcc].
    destruct (Hl r c Hr Hcc (Hc r c Hr Hcc)) as [Hv _].
    apply in_zrange. unfold SIZE in *. simpl. lia. }
  assert (Hd' : In d vals).
  { assert (I : incl (zrange 1 (Z.to_nat SIZE)) vals).
    { apply (NoDup_length_incl Hvnd); auto.
      unfold vals, zrange. rewrite !length_map, length_seq, Hlen. lia. }
    apply I. apply in_zrange. unfold SIZE in *. simpl. lia. }
  unfold vals in Hd'. apply in_map_iff in Hd'.
  destruct Hd' as [[r c] [E H]]. exists r, c. auto.
Qed.

Lemma legal_complete_solved s : legalGrid s -> completeGrid s -> solvedSudoku s.
Proof.
  intros Hl Hc d Hd. conjs.
  - intros r Hr.
    destruct (unit_has_digit s (rowCells r) d Hl Hc (isUnit_rowCells r Hr) Hd)
      as [r' [c [Hin E]]].
    apply in_map_iff in Hin. destruct Hin as [c' [E' Hc']].
    inversion E'; subst. exists c. split; auto. apply in_upto; auto.
  - intros c Hcc.
    destruct (unit_has_digit s (colCells c) d Hl Hc (isUnit_colCells c Hcc) Hd)
      as [r [c' [Hin E]]].
    apply in_map_iff in Hin. destruct Hin as [r' [E' Hr']].
    inversion E'; subst. exists r. split; auto. apply in_upto; auto.
  - intros boxR boxC HR HC.
    apply (unit_has_digit s (boxCells boxR boxC) d Hl Hc); auto.
    apply isUnit_boxCells; auto.
Qed.

(** X3.  A board that [isComplete] accepts and whose cells are legal is a
    solved Sudoku: every row, every column and every box holds every digit
    1..9. *)
Theorem isComplete_legal_solved board :
  legalGrid board -> isComplete board = true -> solvedSudoku board.
Proof.
  intros Hl Hc. apply legal_complete_solved; auto. apply isComplete_spec; auto.
Qed.

Lemma isComplete_legal_solved_witness :
  legalGrid solvedGrid /\ isComplete solvedGrid = true /\ solvedSudoku solvedGrid.
Proof.
  assert (L : legalGrid solvedGrid) by (apply legalGridb_spec; reflexivity).
  assert (C : isComplete solvedGrid = true) by reflexivity.
  split; [exact L|]. split; [exact C|].
  apply (isComplete_legal_solved solvedGrid L C).
Defined.

(** X4.  [generateSolution] always returns true, whatever the generator
    delivers: it leaves the board and the mask alone and stores in [solution]
    a 9x9 grid without empty cells in which every row, column and box holds
    every digit 1..9. *)
Theorem generateSolution_solved game :
  exists game',
    generateSolution game = Some (true, game') /\
    board game' = board game /\ fixed game' = fixed game /\
    wfGrid (solution game') /\ isComplete (solution game') = true /\
    legalGrid (solution game') /\ solvedSudoku (solution game').
Proof.
  destruct (generateSolution_correct game) as [sol [rng' [E Hs]]].
  destruct (completion_empty_legal sol Hs) as [Hw [Hc Hl]].
  eexists. split; [exact E|]. cbn [board solution fixed]. conjs; auto.
  - apply isComplete_spec; auto.
  - apply legal_complete_solved; auto.
Qed.

(** ** Logical moves *)

Lemma possible_spec board num r c :
  possible board num (r, c) = true <->
  get board r c = EMPTY /\ inRange r /\ inRange c /\ 1 <= num <= SIZE /\
  noConflict board r c num.
Proof.
  unfold possible. cbn [fst snd].
  rewrite andb_true_iff, Z.eqb_eq, isValidMove_noConflict. tauto.
Qed.

(** What clashes with nothing in a grid clashes with nothing in a grid with
    fewer cells filled. *)
Lemma noConflict_extends b s r c num :
  extends b s -> 1 <= num -> noConflict s r c num -> noConflict b r c num.
Proof.
  intros He Hn Hs r' c' Hr' Hc' Hp.
  destruct (Z.eq_dec (get b r' c') EMPTY) as [E|N].
  - rewrite E. unfold EMPTY. lia.
  - rewrite <- (He r' c' Hr' Hc' N). apply Hs; auto.
Qed.

Lemma legal_complete_noConflict s r c :
  legalGrid s -> completeGrid s -> inRange r -> inRange c ->
  noConflict s r c (get s r c).
Proof.
  intros Hl Hc Hr Hcc. destruct (Hl r c Hr Hcc (Hc r c Hr Hcc)) as [_ Q]. exact Q.
Qed.

(** A digit with a single possible cell in a unit sits in that cell in every
    legal completion of the board. *)
Lemma hidden_single_forced board s U num r c :
  isUnit U -> filter (possible board num) U = [(r, c)] ->
  legalCompletion board s -> get s r c = num.
Proof.
  intros HU Hf [Hw [Hc [He Hl]]].
  assert (Hin : In (r, c) (filter (possible board num) U))
    by (rewrite Hf; left; reflexivity).
  apply filter_In in Hin. destruct Hin as [HinU Hp].
  apply possible_spec in Hp. destruct Hp as [Hempty [Hr [Hcc [Hnum Hnc]]]].
  destruct (unit_has_digit s U num Hl Hc HU Hnum) as [r' [c' [Hin' Hv]]].
  destruct HU as [_ [_ [Hrange Hpeers]]].
  destruct (Hrange r' c' Hin') as [Hr' Hc'].
  destruct (Z.eq_dec r' r) as [->|Nr];
    [destruct (Z.eq_dec c' c) as [->|Nc]; [exact Hv|]|].
  - exfalso.
    assert (P : peers r c r c') by (apply Hpeers; auto).
    assert (K : In (r, c') (filter (possible board num) U)).
    { apply filter_In. split; auto. apply possible_spec.
      destruct (Z.eq_dec (get board r c') EMPTY) as [E|N].
      - split; [exact E|]. split; [auto|]. split; [auto|]. split; [exact Hnum|].
        apply (noConflict_extends board s); auto; [lia|].
        rewrite <- Hv. apply legal_complete_noConflict; auto.
      - exfalso. apply (Hnc r c' Hr' Hc' P).
        rewrite <- (He r c' Hr' Hc' N). exact Hv. }
    rewrite Hf in K. destruct K as [K|[]]. inversion K. congruence.
  - exfalso.
    assert (P : peers r c r' c') by (apply Hpeers; auto).
    assert (K : In (r', c') (filter (possible board num) U)).
    { apply filter_In. split; auto. apply possible_spec.
      destruct (Z.eq_dec (get board r' c') EMPTY) as [E|N].
      - split; [exact E|]. split; [auto|]. split; [auto|]. split; [exact Hnum|].
        apply (noConflict_extends board s); auto; [lia|].
        rewrite <- Hv. apply legal_complete_noConflict; auto.
      - exfalso. apply (Hnc r' c' Hr' Hc' P).
        rewrite <- (He r' c' Hr' Hc' N). exact Hv. }
    rewrite Hf in K. destruct K as [K|[]]. inversion K. congruence.
Qed.

Lemma hiddenSingle_cases board num m :
  hiddenSingle board num = Some m ->
  exists U r c,
    isUnit U /\ filter (possible board num) U = [(r, c)] /\ m = mkMove r c num.
Proof.
  unfold hiddenSingle.
  destruct (hiddenSingleRows board num) as [m1|] eqn:ER.
  { intros H. inversion H; subst. clear H.
    apply firstSome_in in ER. destruct ER as [r [Hr E]].
    apply in_upto in Hr.
    destruct (filter _ (upto SIZE)) as [|c [|c' l]] eqn:F; try discriminate.
    inversion E; subst. exists (rowCells r), r, c. conjs; auto.
    - apply isUnit_rowCells; auto.
    - unfold rowCells. rewrite filter_map_swap.
      unfold possible. cbn [fst snd]. rewrite F. reflexivity. }
  destruct (hiddenSingleCols board num) as [m1|] eqn:EC.
  { intros H. inversion H; subst. clear H.
    apply firstSome_in in EC. destruct EC as [c [Hc E]].
    apply in_upto in Hc.
    destruct (filter _ (upto SIZE)) as [|r [|r' l]] eqn:F; try discriminate.
    inversion E; subst. exists (colCells c), r, c. conjs; auto.
    - apply isUnit_colCells; auto.
    - unfold colCells. rewrite filter_map_swap.
      unfold possible. cbn [fst snd]. rewrite F. reflexivity. }
  intros H. unfold hiddenSingleBoxes in H.
  apply firstSome_in in H. destruct H as [boxR [HR H]].
  apply firstSome_in in H. destruct H as [boxC [HC H]].
  apply in_zrange in HR, HC. simpl in HR, HC.
  destruct (filter _ (boxCells boxR boxC)) as [|[r c] [|p l]] eqn:F;
    try discriminate.
  inversion H; subst. exists (boxCells boxR boxC), r, c. conjs; auto.
  apply isUnit_boxCells; lia.
Qed.

Lemma nakedSingle_cases board m :
  nakedSingle board = Some m ->
  exists l1 r c v l2,
    allCells = l1 ++ (r, c) :: l2 /\
    get board r c = EMPTY /\ getCandidates board r c = [v] /\
    m = mkMove r c v /\
    forall r' c', In (r', c') l1 -> get board r' c' = EMPTY ->
      length (getCandidates board r' c') <> 1%nat.
Proof.
  intros H. apply firstSome_some in H.
  destruct H as [l1 [[r c] [l2 [E [Hf Hn]]]]].
  destruct (get board r c =? EMPTY) eqn:Ee; [|discriminate].
  apply Z.eqb_eq in Ee.
  destruct (getCandidates board r c) as [|v [|v' l]] eqn:Ec; try discriminate.
  inversion Hf; subst. exists l1, r, c, v, l2. conjs; auto.
  intros r' c' Hin He Hlen. specialize (Hn (r', c') Hin). simpl in Hn.
  apply Z.eqb_eq in He. rewrite He in Hn.
  destruct (getCandidates board r' c') as [|w [|w' l]]; simpl in Hlen;
    discriminate.
Qed.

Lemma getLogicalMove_cases board :
  (exists l1 r c v l2,
     allCells = l1 ++ (r, c) :: l2 /\
     get board r c = EMPTY /\ getCandidates board r c = [v] /\
     getLogicalMove board = mkMove r c v /\
     forall r' c', In (r', c') l1 -> get board r' c' = EMPTY ->
       length (getCandidates board r' c') <> 1%nat)
  \/ (nakedSingle board = None /\
      exists num U r c,
        1 <= num <= SIZE /\ isUnit U /\
        filter (possible board num) U = [(r, c)] /\
        getLogicalMove board = mkMove r c num)
  \/ (nakedSingle board = None /\ getLogicalMove board = NoMove).
Proof.
  unfold getLogicalMove.
  destruct (nakedSingle board) as [m|] eqn:EN.
  - left. destruct (nakedSingle_cases board m EN)
      as [l1 [r [c [v [l2 [E [He [Hc [-> Hn]]]]]]]]].
    exists l1, r, c, v, l2. conjs; auto.
  - right.
    destruct (firstSome (hiddenSingle board) (zrange 1 (Z.to_nat SIZE)))
      as [m|] eqn:EH.
    + left. split; auto. apply firstSome_in in EH. destruct EH as [num [Hn H]].
      apply in_zrange in Hn.
      destruct (hiddenSingle_cases board num m H) as [U [r [c [HU [F ->]]]]].
      exists num, U, r, c. conjs; auto; unfold SIZE in *; simpl in *; lia.
    + right. auto.
Qed.

Lemma in_allCells_split l1 r c l2 :
  allCells = l1 ++ (r, c) :: l2 -> inRange r /\ inRange c.
Proof.
  intros E. apply in_allCells. rewrite E. apply in_or_app. right. left. auto.
Qed.

(** What holds of the move a logical strategy found. *)
Lemma logicalMove_legal board m :
  getLogicalMove board = m -> value m <> -1 ->
  inRange (row m) /\ inRange (col m) /\
  get board (row m) (col m) = EMPTY /\
  isValidMove board (row m) (col m) (value m) = true.
Proof.
  intros <- Hv.
  destruct (getLogicalMove_cases board)
    as [[l1 [r [c [v [l2 [E [He [Hc [Hm _]]]]]]]]]
       |[[_ [num [U [r [c [Hn [HU [F Hm]]]]]]]]|[_ Hm]]];
    rewrite Hm in *; cbn [row col value] in *.
  - destruct (in_allCells_split _ _ _ _ E) as [Hr Hcc]. conjs; auto.
    apply isValidMove_noConflict.
    assert (K : In v (getCandidates board r c)) by (rewrite Hc; left; auto).
    apply in_getCandidates in K; auto; tauto.
  - assert (K : In (r, c) (filter (possible board num) U))
      by (rewrite F; left; auto).
    apply filter_In in K. destruct K as [_ K]. pose proof K as K'.
    apply possible_spec in K. unfold possible in K'. cbn [fst snd] in K'.
    apply andb_true_iff in K'. tauto.
  - exfalso. apply Hv. reflexivity.
Qed.

(** X5.  A move that [getLogicalMove] returns, unless it is the answer
    (-1, -1, -1), names an empty cell of the board and a value that
    [isValidMove] accepts there. *)
Theorem getLogicalMove_legal board :
  value (getLogicalMove board) <> -1 ->
  inRange (row (getLogicalMove board)) /\
  inRange (col (getLogicalMove board)) /\
  get board (row (getLogicalMove board)) (col (getLogicalMove board)) = EMPTY /\
  isValidMove board (row (getLogicalMove board)) (col (getLogicalMove board))
              (value (getLogicalMove board)) = true.
Proof.
  intros Hv.
  destruct (getLogicalMove_cases board)
    as [[l1 [r [c [v [l2 [E [He [Hc [Hm _]]]]]]]]]
       |[[_ [num [U [r [c [Hn [HU [F Hm]]]]]]]]|[_ Hm]]];
    rewrite Hm in *; cbn [row col value] in *.
  - destruct (in_allCells_split _ _ _ _ E) as [Hr Hcc]. conjs; auto.
    apply isValidMove_noConflict.
    assert (K : In v (getCandidates board r c)) by (rewrite Hc; left; auto).
    apply in_getCandidates in K; auto; tauto.
  - assert (K : In (r, c) (filter (possible board num) U))
      by (rewrite F; left; auto).
    apply filter_In in K. destruct K as [_ K]. pose proof K as K'.
    apply possible_spec in K. unfold possible in K'. cbn [fst snd] in K'.
    apply andb_true_iff in K'. tauto.
  - exfalso. apply Hv. reflexivity.
Qed.

Lemma getLogicalMove_legal_witness :
  value (getLogicalMove (board samplePuzzle)) <> -1 /\
  (inRange (row (getLogicalMove (board samplePuzzle))) /\
   inRange (col (getLogicalMove (board samplePuzzle))) /\
   get (board samplePuzzle) (row (getLogicalMove (board samplePuzzle)))
       (col (getLogicalMove (board samplePuzzle))) = EMPTY /\
   isValidMove (board samplePuzzle) (row (getLogicalMove (board samplePuzzle)))
               (col (getLogicalMove (board samplePuzzle)))
               (value (getLogicalMove (board samplePuzzle))) = true).
Proof.
  assert (H : value (getLogicalMove (board samplePuzzle)) <> -1)
    by (vm_compute; discriminate).
  split; [exact H|]. apply (getLogicalMove_legal (board samplePuzzle) H).
Defined.

Lemma logicalMove_forced board s m :
  legalCompletion board s -> getLogicalMove board = m -> value m <> -1 ->
  get s (row m) (col m) = value m.
Proof.
  intros Hs <- Hv.
  destruct (getLogicalMove_cases board)
    as [[l1 [r [c [v [l2 [E [He [Hc [Hm _]]]]]]]]]
       |[[_ [num [U [r [c [Hn [HU [F Hm]]]]]]]]|[_ Hm]]];
    rewrite Hm in *; cbn [row col value] in *.
  - destruct (in_allCells_split _ _ _ _ E) as [Hr Hcc].
    pose proof (completion_candidate board r c s Hr Hcc He
                  (legalCompletion_completion _ _ Hs)) as K.
    rewrite Hc in K. destruct K as [K|[]]. auto.
  - apply (hidden_single_forced board s U num r c); auto.
  - exfalso. apply Hv. reflexivity.
Qed.

(** X6.  A move that [getLogicalMove] returns is forced: every solved Sudoku
    that keeps the filled cells of the board holds the suggested value in the
    suggested cell. *)
Theorem getLogicalMove_forced board s :
  legalCompletion board s ->
  value (getLogicalMove board) <> -1 ->
  get s (row (getLogicalMove board)) (col (getLogicalMove board))
    = value (getLogicalMove board).
Proof.
  intros Hs Hv.
  destruct (getLogicalMove_cases board)
    as [[l1 [r [c [v [l2 [E [He [Hc [Hm _]]]]]]]]]
       |[[_ [num [U [r [c [Hn [HU [F Hm]]]]]]]]|[_ Hm]]];
    rewrite Hm in *; cbn [row col value] in *.
  - destruct (in_allCells_split _ _ _ _ E) as [Hr Hcc].
    pose proof (completion_candidate board r c s Hr Hcc He
                  (legalCompletion_completion _ _ Hs)) as K.
    rewrite Hc in K. destruct K as [K|[]]. auto.
  - apply (hidden_single_forced board s U num r c); auto.
  - exfalso. apply Hv. reflexivity.
Qed.

Lemma getLogicalMove_forced_witness :
  legalCompletion (board samplePuzzle) solvedGrid /\
  value (getLogicalMove (board samplePuzzle)) <> -1 /\
  get solvedGrid (row (getLogicalMove (board samplePuzzle)))
      (col (getLogicalMove (board samplePuzzle)))
    = value (getLogicalMove (board samplePuzzle)).
Proof.
  assert (L : legalCompletion (board samplePuzzle) solvedGrid).
  { apply completion_legalCompletion.
    - apply legalGridb_spec. vm_compute. reflexivity.
    - apply completionb_sound. vm_compute. reflexivity. }
  assert (H : value (getLogicalMove (board samplePuzzle)) <> -1)
    by (vm_compute; discriminate).
  split; [exact L|]. split; [exact H|].
  apply (getLogicalMove_forced (board samplePuzzle) solvedGrid L H).
Defined.

(** X7.  When some empty cell of the board has exactly one candidate,
    [getLogicalMove] returns the naked single of the first such cell in
    row-major order, with its only candidate; so on a board whose only empty
    cell has one candidate it returns that cell and that value. *)
Theorem getLogicalMove_naked_single board r c v :
  inRange r -> inRange c ->
  get board r c = EMPTY -> getCandidates board r c = [v] ->
  (exists l1 r' c' v' l2,
     allCells = l1 ++ (r', c') :: l2 /\
     getLogicalMove board = mkMove r' c' v' /\
     get board r' c' = EMPTY /\ getCandidates board r' c' = [v'] /\
     forall r'' c'', In (r'', c'') l1 -> get board r'' c'' = EMPTY ->
       length (getCandidates board r'' c'') <> 1%nat) /\
  ((forall r' c', inRange r' -> inRange c' -> get board r' c' = EMPTY ->
      r' = r /\ c' = c) ->
   getLogicalMove board = mkMove r c v).
Proof.
  intros Hr Hc He Hcand.
  assert (HN : nakedSingle board <> None).
  { intros HN. unfold nakedSingle in HN.
    rewrite firstSome_none in HN.
    specialize (HN (r, c) (proj2 (in_allCells r c) (conj Hr Hc))).
    simpl in HN. rewrite He, Hcand in HN. discriminate. }
  destruct (getLogicalMove_cases board)
    as [[l1 [r' [c' [v' [l2 [E [He' [Hc' [Hm Hn]]]]]]]]]
       |[[HN' _]|[HN' _]]]; try contradiction.
  split.
  - exists l1, r', c', v', l2. conjs; auto.
  - intros Honly.
    destruct (in_allCells_split _ _ _ _ E) as [Hr' Hcc'].
    destruct (Honly r' c' Hr' Hcc' He') as [-> ->].
    rewrite Hm. rewrite Hcand in Hc'. inversion Hc'. reflexivity.
Qed.

Lemma getLogicalMove_naked_single_witness :
  inRange 0 /\ inRange 0 /\
  get conflictGrid 0 0 = EMPTY /\ getCandidates conflictGrid 0 0 = [9] /\
  ((exists l1 r' c' v' l2,
      allCells = l1 ++ (r', c') :: l2 /\
      getLogicalMove conflictGrid = mkMove r' c' v' /\
      get conflictGrid r' c' = EMPTY /\ getCandidates conflictGrid r' c' = [v'] /\
      forall r'' c'', In (r'', c'') l1 -> get conflictGrid r'' c'' = EMPTY ->
        length (getCandidates conflictGrid r'' c'') <> 1%nat) /\
   ((forall r' c', inRange r' -> inRange c' -> get conflictGrid r' c' = EMPTY ->
       r' = 0 /\ c' = 0) ->
    getLogicalMove conflictGrid = mkMove 0 0 9)).
Proof.
  assert (R0 : inRange 0) by (unfold inRange, SIZE; lia).
  assert (E : get conflictGrid 0 0 = EMPTY) by reflexivity.
  assert (C : getCandidates conflictGrid 0 0 = [9]) by (vm_compute; reflexivity).
  split; [exact R0|]. split; [exact R0|]. split; [exact E|]. split; [exact C|].
  apply (getLogicalMove_naked_single conflictGrid 0 0 9 R0 R0 E C).
Defined.

(** ** Suggestions: [getNextMove] and [getHint] *)

Lemma filter_nil {A} (f : A -> bool) l :
  (forall x, In x l -> f x = false) -> filter f l = [].
Proof.
  induction l as [|a l IH]; intros H; simpl; auto.
  rewrite (H a) by (left; auto). apply IH. intros x Hx. apply H. right; auto.
Qed.

Lemma getLogicalMove_complete board :
  completeGrid board -> getLogicalMove board = NoMove.
Proof.
  intros Hc.
  assert (HP : forall num U, isUnit U -> filter (possible board num) U = []).
  { intros num U [_ [_ [Hin _]]]. apply filter_nil. intros [r c] H.
    destruct (Hin r c H) as [Hr Hcc]. unfold possible. cbn [fst snd].
    apply andb_false_iff. left. apply Z.eqb_neq. apply Hc; auto. }
  destruct (getLogicalMove_cases board)
    as [[l1 [r [c [v [l2 [E [He _]]]]]]]
       |[[_ [num [U [r [c [_ [HU [F _]]]]]]]]|[_ Hm]]]; auto.
  - destruct (in_allCells_split _ _ _ _ E) as [Hr Hcc].
    exfalso. apply (Hc r c); auto.
  - rewrite (HP num U HU) in F. discriminate.
Qed.

Lemma getHint_scan_result board cells bestRow bestCol m r c :
  getHint_scan board cells bestRow bestCol m = (r, c) ->
  (r = bestRow /\ c = bestCol /\
   forall r' c', In (r', c') cells -> get board r' c' = EMPTY ->
     ~ (0 < candidateCount board r' c' < m))
  \/ (In (r, c) cells /\ get board r c = EMPTY).
Proof.
  unfold candidateCount.
  revert bestRow bestCol m.
  induction cells as [|[r0 c0] rest IH]; intros bestRow bestCol m H; simpl in H.
  - inversion H; subst. left. split; [auto|split; [auto|intros r' c' []]].
  - destruct (get board r0 c0 =? EMPTY) eqn:E.
    + apply Z.eqb_eq in E.
      destruct ((Z.of_nat (length (getCandidates board r0 c0)) <? m)
                && (Z.of_nat (length (getCandidates board r0 c0)) >? 0)) eqn:Et.
      * apply IH in H. right.
        destruct H as [[-> [-> _]]|[Hin He]]; simpl; auto.
      * apply IH in H. destruct H as [[-> [-> Hall]]|[Hin He]].
        -- left. conjs; auto.
           intros r' c' [Hp|Hp] He'; [|apply Hall; auto].
           inversion Hp; subst. apply andb_false_iff in Et. lia.
        -- right. simpl; auto.
    + apply Z.eqb_neq in E. apply IH in H.
      destruct H as [[-> [-> Hall]]|[Hin He]].
      * left. conjs; auto.
        intros r' c' [Hp|Hp] He'; [|apply Hall; auto].
        inversion Hp; subst. contradiction.
      * right. simpl; auto.
Qed.

(** X8.  On a board without empty cells nothing is suggested:
    [getLogicalMove], [getHint] and [getNextMove] all answer (-1, -1, -1), and
    [getNextMove] leaves the object, generator included, as it was. *)
Theorem no_suggestion_on_complete_board game :
  completeGrid (board game) ->
  getLogicalMove (board game) = NoMove /\
  getHint game = NoMove /\
  getNextMove game = Some (NoMove, game).
Proof.
  intros Hc. pose proof (getLogicalMove_complete _ Hc) as HL. conjs; auto.
  - unfold getHint. rewrite HL. cbn [value NoMove negb Z.eqb].
    simpl negb. cbv iota.
    destruct (getHint_scan (board game) allCells (-1) (-1) (SIZE + 1))
      as [r c] eqn:ES.
    apply getHint_scan_result in ES.
    destruct ES as [[-> [-> _]]|[Hin He]]; [reflexivity|].
    apply in_allCells in Hin. exfalso. apply (Hc r c); tauto.
  - unfold getNextMove. rewrite HL. cbn [value NoMove].
    simpl negb. cbv iota.
    unfold solveBacktrack, maxDepth. cbn [solveBacktrack_fuel].
    rewrite (proj2 (findBestCell_none _) Hc).
    assert (HF : firstSome (fun p : Z * Z =>
                   let (r, c) := p in
                   if get (board game) r c =? EMPTY
                   then Some (mkMove r c (get (board game) r c)) else None)
                   allCells = None).
    { apply firstSome_none. intros [r c] Hin. apply in_allCells in Hin.
      destruct (get (board game) r c =? EMPTY) eqn:E; auto.
      apply Z.eqb_eq in E. exfalso. apply (Hc r c); tauto. }
    rewrite HF. destruct game; reflexivity.
Qed.

Lemma no_suggestion_on_complete_board_witness :
  completeGrid (board (mkGame solvedGrid solvedGrid (filled true) [4; 2])) /\
  getLogicalMove solvedGrid = NoMove /\
  getHint (mkGame solvedGrid solvedGrid (filled true) [4; 2]) = NoMove /\
  getNextMove (mkGame solvedGrid solvedGrid (filled true) [4; 2])
    = Some (NoMove, mkGame solvedGrid solvedGrid (filled true) [4; 2]).
Proof.
  assert (C : completeGrid (board (mkGame solvedGrid solvedGrid (filled true) [4; 2])))
    by (apply isComplete_spec; reflexivity).
  split; [exact C|].
  apply (no_suggestion_on_complete_board
           (mkGame solvedGrid solvedGrid (filled true) [4; 2]) C).
Defined.

(** X9.  On every 9x9 board [getNextMove] returns, changes nothing of the
    object but the generator, and its answer is (-1, -1, -1) or names an empty
    cell of the board with a value that [isValidMove] accepts there. *)
Theorem getNextMove_legal game :
  wfGrid (board game) ->
  exists m game',
    getNextMove game = Some (m, game') /\
    board game' = board game /\ solution game' = solution game /\
    fixed game' = fixed game /\
    (m = NoMove \/
     (inRange (row m) /\ inRange (col m) /\
      get (board game) (row m) (col m) = EMPTY /\
      isValidMove (board game) (row m) (col m) (value m) = true)).
Proof.
  intros Hw. unfold getNextMove.
  destruct (value (getLogicalMove (board game)) =? -1) eqn:EV; simpl negb; cbv iota.
  - destruct (solveBacktrack_correct (board game) (rng game) Hw)
      as [[[ok g'] rng'] [E S]].
    rewrite E. destruct ok; simpl in S.
    + destruct (firstSome _ allCells) as [m|] eqn:EF.
      * eexists _, _. split; [reflexivity|]. cbn [board solution fixed].
        conjs; auto. right.
        apply firstSome_in in EF. destruct EF as [[r c] [Hin Hf]].
        apply in_allCells in Hin. destruct Hin as [Hr Hc].
        destruct (get (board game) r c =? EMPTY) eqn:Ee; [|discriminate].
        apply Z.eqb_eq in Ee. inversion Hf; subst. cbn [row col value].
        split; [exact Hr|]. split; [exact Hc|]. split; [exact Ee|].
        apply isValidMove_noConflict.
        destruct (completion_noConflict (board game) r c g' Hr Hc Ee S).
        tauto.
      * eexists _, _. split; [reflexivity|]. cbn [board solution fixed]. auto.
    + eexists _, _. split; [reflexivity|]. cbn [board solution fixed]. auto.
  - apply Z.eqb_neq in EV. eexists _, _. split; [reflexivity|].
    conjs; auto. right. apply (logicalMove_legal (board game)); auto.
Qed.

Lemma getNextMove_legal_witness :
  wfGrid (board samplePuzzle) /\
  exists m game',
    getNextMove samplePuzzle = Some (m, game') /\
    board game' = board samplePuzzle /\ solution game' = solution samplePuzzle /\
    fixed game' = fixed samplePuzzle /\
    (m = NoMove \/
     (inRange (row m) /\ inRange (col m) /\
      get (board samplePuzzle) (row m) (col m) = EMPTY /\
      isValidMove (board samplePuzzle) (row m) (col m) (value m) = true)).
Proof.
  assert (W : wfGrid (board samplePuzzle)) by (apply wfGridb_spec; reflexivity).
  split; [exact W|]. apply (getNextMove_legal samplePuzzle W).
Defined.

(** X10.  On a 9x9 board that passes the uniqueness check, [getNextMove]
    suggests the value of the solution: if [s] is a solved Sudoku that keeps
    the filled cells of the board, the answer is (-1, -1, -1) exactly when the
    board has no empty cell, and otherwise names an empty cell with the value
    [s] holds there. *)
Theorem getNextMove_solution_value game s :
  wfGrid (board game) ->
  legalCompletion (board game) s ->
  hasUniqueSolution (board game) = Some true ->
  exists m game',
    getNextMove game = Some (m, game') /\
    ((completeGrid (board game) /\ m = NoMove) \/
     (inRange (row m) /\ inRange (col m) /\
      get (board game) (row m) (col m) = EMPTY /\
      value m = get s (row m) (col m))).
Proof.
  intros Hw Hs Hu. pose proof (legalCompletion_completion _ _ Hs) as Hcs.
  unfold getNextMove.
  destruct (value (getLogicalMove (board game)) =? -1) eqn:EV; simpl negb; cbv iota.
  - destruct (solveBacktrack_correct (board game) (rng game) Hw)
      as [[[ok g'] rng'] [E S]].
    rewrite E. destruct ok; simpl in S.
    + assert (g' = s) by (apply (unique_completion (board game)); auto).
      subst g'.
      destruct (firstSome _ allCells) as [m|] eqn:EF.
      * eexists _, _. split; [reflexivity|]. right.
        apply firstSome_in in EF. destruct EF as [[r c] [Hin Hf]].
        apply in_allCells in Hin. destruct Hin as [Hr Hc].
        destruct (get (board game) r c =? EMPTY) eqn:Ee; [|discriminate].
        apply Z.eqb_eq in Ee. inversion Hf; subst. cbn [row col value]. auto.
      * eexists _, _. split; [reflexivity|]. left. split; auto.
        intros r c Hr Hc He. rewrite firstSome_none in EF.
        specialize (EF (r, c) (proj2 (in_allCells r c) (conj Hr Hc))).
        simpl in EF. rewrite He in EF. discriminate.
    + destruct S as [_ Hno]. exfalso. apply (Hno s); auto.
  - apply Z.eqb_neq in EV. eexists _, _. split; [reflexivity|]. right.
    destruct (logicalMove_legal _ _ eq_refl EV) as [Hr [Hc [He _]]].
    conjs; auto. symmetry. apply (logicalMove_forced (board game)); auto.
Qed.

Lemma getNextMove_solution_value_witness :
  wfGrid (board samplePuzzle) /\
  legalCompletion (board samplePuzzle) solvedGrid /\
  hasUniqueSolution (board samplePuzzle) = Some true /\
  exists m game',
    getNextMove samplePuzzle = Some (m, game') /\
    ((completeGrid (board samplePuzzle) /\ m = NoMove) \/
     (inRange (row m) /\ inRange (col m) /\
      get (board samplePuzzle) (row m) (col m) = EMPTY /\
      value m = get solvedGrid (row m) (col m))).
Proof.
  assert (W : wfGrid (board samplePuzzle)) by (apply wfGridb_spec; reflexivity).
  assert (L : legalCompletion (board samplePuzzle) solvedGrid).
  { apply completion_legalCompletion.
    - apply legalGridb_spec. vm_compute. reflexivity.
    - apply completionb_sound. vm_compute. reflexivity. }
  assert (U : hasUniqueSolution (board samplePuzzle) = Some true)
    by (vm_compute; reflexivity).
  split; [exact W|]. split; [exact L|]. split; [exact U|].
  apply (getNextMove_solution_value samplePuzzle solvedGrid W L U).
Defined.

(** X11.  While the stored solution is a solved Sudoku that keeps the filled
    cells of the board, [getHint] answers (-1, -1, -1) exactly when the board
    has no empty cell, and otherwise names an empty cell together with the
    value the solution holds there. *)
Theorem getHint_solution_value game :
  legalCompletion (board game) (solution game) ->
  (completeGrid (board game) /\ getHint game = NoMove) \/
  (exists r c,
     inRange r /\ inRange c /\ get (board game) r c = EMPTY /\
     getHint game = mkMove r c (get (solution game) r c)).
Proof.
  intros Hs. pose proof (legalCompletion_completion _ _ Hs) as Hcs.
  unfold getHint.
  destruct (value (getLogicalMove (board game)) =? -1) eqn:EV; simpl negb; cbv iota.
  - destruct (getHint_scan (board game) allCells (-1) (-1) (SIZE + 1))
      as [r c] eqn:ES.
    apply getHint_scan_result in ES.
    destruct ES as [[-> [-> Hall]]|[Hin He]].
    + left. split; [|reflexivity]. intros r c Hr Hc He.
      apply (Hall r c); auto; [apply in_allCells; auto|].
      pose proof (completion_candidate (board game) r c (solution game)
                    Hr Hc He Hcs) as K.
      pose proof (getCandidates_length (board game) r c).
      unfold candidateCount.
      destruct (getCandidates (board game) r c); [destruct K|].
      simpl length in *. unfold SIZE in *. lia.
    + right. apply in_allCells in Hin. destruct Hin as [Hr Hc].
      exists r, c. conjs; auto.
      assert (N1 : (r =? -1) = false) by (apply Z.eqb_neq; unfold inRange in *; lia).
      assert (N2 : (c =? -1) = false) by (apply Z.eqb_neq; unfold inRange in *; lia).
      rewrite N1, N2. reflexivity.
  - apply Z.eqb_neq in EV. right.
    destruct (logicalMove_legal _ _ eq_refl EV) as [Hr [Hc [He _]]].
    exists (row (getLogicalMove (board game))), (col (getLogicalMove (board game))).
    conjs; auto.
    rewrite (logicalMove_forced _ _ _ Hs eq_refl EV).
    destruct (getLogicalMove (board game)); reflexivity.
Qed.

Lemma getHint_solution_value_witness :
  legalCompletion (board samplePuzzle) (solution samplePuzzle) /\
  ((completeGrid (board samplePuzzle) /\ getHint samplePuzzle = NoMove) \/
   (exists r c,
      inRange r /\ inRange c /\ get (board samplePuzzle) r c = EMPTY /\
      getHint samplePuzzle = mkMove r c (get (solution samplePuzzle) r c))).
Proof.
  assert (L : legalCompletion (board samplePuzzle) (solution samplePuzzle)).
  { apply completion_legalCompletion.
    - apply legalGridb_spec. vm_compute. reflexivity.
    - apply completionb_sound. vm_compute. reflexivity. }
  split; [exact L|]. apply (getHint_solution_value samplePuzzle L).
Defined.

(** ** Player moves keep the game consistent *)

Lemma makeMove_true_inv game r c v game' :
  makeMove game r c v = (true, game') ->
  inRange r /\ inRange c /\ getb (fixed game) r c = false /\
  0 <= v <= SIZE /\ (v = EMPTY \/ noConflict (board game) r c v) /\
  game' = withBoard game (set (board game) r c v).
Proof.
  unfold makeMove, makeMove_try.
  destruct ((r <? 0) || (r >=? SIZE) || (c <? 0) || (c >=? SIZE)) eqn:E;
    [discriminate|].
  rewrite !orb_false_iff in E.
  assert (Hr : inRange r) by (unfold inRange; lia).
  assert (Hc : inRange c) by (unfold inRange; lia).
  destruct (getb (fixed game) r c) eqn:Ef; [discriminate|].
  destruct ((v <? 0) || (v >? SIZE)) eqn:Ev; [discriminate|].
  rewrite orb_false_iff in Ev.
  destruct (v =? EMPTY) eqn:E0.
  - apply Z.eqb_eq in E0. subst v. intros H. inversion H.
    split; [exact Hr|]. split; [exact Hc|]. split; [reflexivity|].
    split; [unfold EMPTY, SIZE; lia|]. split; [left; reflexivity|reflexivity].
  - destruct (isValidMove (board game) r c v) eqn:Em; simpl; [|discriminate].
    apply isValidMove_noConflict in Em. intros H. inversion H.
    split; [exact Hr|]. split; [exact Hc|]. split; [reflexivity|].
    split; [lia|]. split; [right; tauto|reflexivity].
Qed.

Lemma makeMove_false_inv game r c v game' :
  makeMove game r c v = (false, game') -> game' = game.
Proof.
  unfold makeMove, makeMove_try.
  repeat match goal with
         | |- context [if ?b then _ else _] => destruct b
         end; simpl; intros H; inversion H; reflexivity.
Qed.

Lemma makeMove_accepts game r c v :
  inRange r -> inRange c -> getb (fixed game) r c = false ->
  0 <= v <= SIZE -> (v = EMPTY \/ noConflict (board game) r c v) ->
  makeMove game r c v = (true, withBoard game (set (board game) r c v)).
Proof.
  intros Hr Hc Hf Hv Hn. unfold makeMove, makeMove_try, inRange in *.
  assert (E : (r <? 0) || (r >=? SIZE) || (c <? 0) || (c >=? SIZE) = false).
  { rewrite !orb_false_iff. lia. }
  rewrite E, Hf.
  assert (Ev : (v <? 0) || (v >? SIZE) = false) by (rewrite orb_false_iff; lia).
  rewrite Ev. destruct (v =? EMPTY) eqn:E0.
  - apply Z.eqb_eq in E0. subst. reflexivity.
  - apply Z.eqb_neq in E0. destruct Hn as [Hn|Hn]; [contradiction|].
    assert (Em : isValidMove (board game) r c v = true).
    { apply isValidMove_noConflict. unfold inRange, EMPTY in *.
      split; [lia|]. split; [lia|]. split; [lia|exact Hn]. }
    rewrite Em. reflexivity.
Qed.

(** Writing a digit that clashes with no peer, or emptying a cell, keeps a
    legal grid legal. *)
Lemma legalGrid_set g r c v :
  wfGrid g -> inRange r -> inRange c -> legalGrid g ->
  (v = EMPTY \/ (1 <= v <= SIZE /\ noConflict g r c v)) ->
  legalGrid (set g r c v).
Proof.
  intros Hw Hr Hc Hl Hv r' c' Hr' Hc' Hne.
  rewrite get_set in Hne by auto. unfold legalAt. rewrite (get_set g) by auto.
  destruct ((r' =? r) && (c' =? c)) eqn:E.
  - apply eqb_cell in E. destruct E; subst.
    destruct Hv as [->|[Hd Hn]]; [contradiction|]. split; auto.
    intros r'' c'' Hr'' Hc'' Hp.
    rewrite get_set_other by (auto; destruct Hp; auto). apply Hn; auto.
  - destruct (Hl r' c' Hr' Hc' Hne) as [Hd Hn]. split; auto.
    intros r'' c'' Hr'' Hc'' Hp. rewrite get_set by auto.
    destruct ((r'' =? r) && (c'' =? c)) eqn:E'; [|apply Hn; auto].
    apply eqb_cell in E'. destruct E'; subst.
    destruct Hv as [->|[_ Hn']]; [unfold EMPTY, SIZE in *; lia|].
    intros Heq. apply (Hn' r' c' Hr' Hc' (peers_sym _ _ _ _ Hp)). auto.
Qed.

(** X12.  [makeMove] keeps the board consistent: on a 9x9 board whose filled
    cells are legal, whatever the arguments and whether the move is accepted
    or refused, the board afterwards is again 9x9 with legal filled cells. *)
Theorem makeMove_preserves_legal game r c v :
  wfGrid (board game) -> legalGrid (board game) ->
  wfGrid (board (snd (makeMove game r c v))) /\
  legalGrid (board (snd (makeMove game r c v))).
Proof.
  intros Hw Hl. destruct (makeMove game r c v) as [[|] game'] eqn:E; simpl.
  - apply makeMove_true_inv in E.
    destruct E as [Hr [Hc [_ [Hv [Hn ->]]]]]. cbn [board withBoard]. split.
    + apply wfGrid_set; auto.
    + apply legalGrid_set; auto.
      destruct Hn as [Hn|Hn]; auto.
      destruct (Z.eq_dec v EMPTY); auto. right. unfold EMPTY in *.
      split; [lia|exact Hn].
  - apply makeMove_false_inv in E. subst. auto.
Qed.

Lemma makeMove_preserves_legal_witness :
  wfGrid (board samplePuzzle) /\ legalGrid (board samplePuzzle) /\
  (wfGrid (board (snd (makeMove samplePuzzle 0 0 9))) /\
   legalGrid (board (snd (makeMove samplePuzzle 0 0 9)))).
Proof.
  assert (W : wfGrid (board samplePuzzle)) by (apply wfGridb_spec; reflexivity).
  assert (L : legalGrid (board samplePuzzle))
    by (apply legalGridb_spec; vm_compute; reflexivity).
  split; [exact W|]. split; [exact L|].
  apply (makeMove_preserves_legal samplePuzzle 0 0 9 W L).
Defined.

(** X13.  [makeMove] writes at most the cell it is given: the solution, the
    mask and the generator stay as they were, every other cell of the board
    keeps its value, and so does every cell whose fixed flag is set, so no
    sequence of player moves alters a clue. *)
Theorem makeMove_frame game r c v :
  solution (snd (makeMove game r c v)) = solution game /\
  fixed (snd (makeMove game r c v)) = fixed game /\
  rng (snd (makeMove game r c v)) = rng game /\
  (forall r' c', inRange r' -> inRange c' -> (r' <> r \/ c' <> c) ->
     get (board (snd (makeMove game r c v))) r' c' = get (board game) r' c') /\
  (forall r' c', inRange r' -> inRange c' -> getb (fixed game) r' c' = true ->
     get (board (snd (makeMove game r c v))) r' c' = get (board game) r' c').
Proof.
  destruct (makeMove game r c v) as [[|] game'] eqn:E; simpl.
  - apply makeMove_true_inv in E.
    destruct E as [Hr [Hc [Hf [_ [_ ->]]]]]. cbn [board solution fixed rng withBoard].
    split; [reflexivity|]. split; [reflexivity|]. split; [reflexivity|]. split.
    + intros r' c' Hr' Hc' Hne. apply get_set_other; auto.
    + intros r' c' Hr' Hc' Hf'. apply get_set_other; auto.
      destruct (Z.eq_dec r' r); auto. destruct (Z.eq_dec c' c); auto.
      subst. congruence.
  - apply makeMove_false_inv in E. subst. auto.
Qed.

(** X14.  An accepted move reads back and can be taken back: on a 9x9 board,
    after [makeMove] has accepted a value for a cell, the cell holds that
    value, the same move is accepted again and changes nothing, and, if the
    cell was empty before, clearing it (value 0) is accepted and gives back
    the object exactly as it was. *)
Theorem makeMove_read_back_and_undo game r c v game1 :
  wfGrid (board game) ->
  makeMove game r c v = (true, game1) ->
  get (board game1) r c = v /\
  makeMove game1 r c v = (true, game1) /\
  (get (board game) r c = EMPTY -> makeMove game1 r c EMPTY = (true, game)).
Proof.
  intros Hw E. apply makeMove_true_inv in E.
  destruct E as [Hr [Hc [Hf [Hv [Hn ->]]]]].
  assert (SS : forall x y, set (set (board game) r c x) r c y = set (board game) r c y).
  { intros x y.
    apply grid_ext;
      [apply wfGrid_set; auto; apply wfGrid_set; auto | apply wfGrid_set; auto|].
    intros r' c' Hr' Hc'. rewrite !get_set by auto using wfGrid_set.
    destruct ((r' =? r) && (c' =? c)); reflexivity. }
  cbn [board withBoard]. split; [apply get_set_same; auto|]. split.
  - rewrite makeMove_accepts; cbn [board fixed withBoard solution rng]; auto.
    + unfold withBoard. cbn [board fixed solution rng]. rewrite SS. reflexivity.
    + destruct Hn as [Hn|Hn]; auto. right.
      intros r' c' Hr' Hc' Hp.
      rewrite get_set_other by (auto; destruct Hp; auto). apply Hn; auto.
  - intros He. rewrite makeMove_accepts; cbn [board fixed withBoard solution rng]; auto.
    + unfold withBoard. cbn [board fixed solution rng]. rewrite SS.
      rewrite <- He at 1. rewrite set_same by auto. destruct game; reflexivity.
    + unfold EMPTY, SIZE. lia.
Qed.

Lemma makeMove_read_back_and_undo_witness :
  wfGrid (board samplePuzzle) /\
  makeMove samplePuzzle 0 0 9
    = (true, withBoard samplePuzzle (set (board samplePuzzle) 0 0 9)) /\
  (get (board (withBoard samplePuzzle (set (board samplePuzzle) 0 0 9))) 0 0 = 9 /\
   makeMove (withBoard samplePuzzle (set (board samplePuzzle) 0 0 9)) 0 0 9
     = (true, withBoard samplePuzzle (set (board samplePuzzle) 0 0 9)) /\
   (get (board samplePuzzle) 0 0 = EMPTY ->
    makeMove (withBoard samplePuzzle (set (board samplePuzzle) 0 0 9)) 0 0 EMPTY
      = (true, samplePuzzle))).
Proof.
  assert (W : wfGrid (board samplePuzzle)) by (apply wfGridb_spec; reflexivity).
  assert (M : makeMove samplePuzzle 0 0 9
              = (true, withBoard samplePuzzle (set (board samplePuzzle) 0 0 9)))
    by (vm_compute; reflexivity).
  split; [exact W|]. split; [exact M|].
  apply (makeMove_read_back_and_undo samplePuzzle 0 0 9 _ W M).
Defined.

(** X15.  A hint can be played: on a 9x9 board of which the stored solution
    is a completion, for an empty cell that is not fixed, [getHintForCell]
    answers with the value of the solution, [makeMove] accepts that value for
    the cell, and the solution is still a completion of the board
    afterwards. *)
Theorem hint_then_move game r c :
  wfGrid (board game) -> completion (board game) (solution game) ->
  inRange r -> inRange c ->
  get (board game) r c = EMPTY -> getb (fixed game) r c = false ->
  getHintForCell game r c = mkMove r c (get (solution game) r c) /\
  makeMove game r c (get (solution game) r c)
    = (true, withBoard game (set (board game) r c (get (solution game) r c))) /\
  completion (set (board game) r c (get (solution game) r c)) (solution game).
Proof.
  intros Hw Hs Hr Hc He Hf.
  destruct (completion_noConflict _ r c _ Hr Hc He Hs) as [Hd Hn]. split.
  - unfold getHintForCell, inRange in *.
    assert (E : (r <? 0) || (r >=? SIZE) || (c <? 0) || (c >=? SIZE) = false).
    { rewrite !orb_false_iff. lia. }
    rewrite E, He, Hf. reflexivity.
  - split.
    + apply makeMove_accepts; auto. lia.
    + apply completion_set; auto.
Qed.

Lemma hint_then_move_witness :
  wfGrid (board samplePuzzle) /\
  completion (board samplePuzzle) (solution samplePuzzle) /\
  inRange 0 /\ inRange 0 /\
  get (board samplePuzzle) 0 0 = EMPTY /\ getb (fixed samplePuzzle) 0 0 = false /\
  (getHintForCell samplePuzzle 0 0 = mkMove 0 0 (get (solution samplePuzzle) 0 0) /\
   makeMove samplePuzzle 0 0 (get (solution samplePuzzle) 0 0)
     = (true, withBoard samplePuzzle
                (set (board samplePuzzle) 0 0 (get (solution samplePuzzle) 0 0))) /\
   completion (set (board samplePuzzle) 0 0 (get (solution samplePuzzle) 0 0))
              (solution samplePuzzle)).
Proof.
  assert (W : wfGrid (board samplePuzzle)) by (apply wfGridb_spec; reflexivity).
  assert (C : completion (board samplePuzzle) (solution samplePuzzle))
    by (apply completionb_sound; vm_compute; reflexivity).
  assert (R0 : inRange 0) by (unfold inRange, SIZE; lia).
  assert (E : get (board samplePuzzle) 0 0 = EMPTY) by reflexivity.
  assert (F : getb (fixed samplePuzzle) 0 0 = false) by reflexivity.
  split; [exact W|]. split; [exact C|]. split; [exact R0|]. split; [exact R0|].
  split; [exact E|]. split; [exact F|].
  apply (hint_then_move samplePuzzle 0 0 W C R0 R0 E F).
Defined.

(** ** Solving, counting and dead ends *)

(** X16.  Auto-solving a freshly generated puzzle always succeeds and turns
    the board into the stored solution, whatever the generator delivers; the
    solution and the mask are untouched and [isComplete] then holds. *)
Theorem createPuzzle_then_solvePuzzle d game game' :
  createPuzzle d game = Some (Returned tt game') ->
  forall rng0, exists rng',
    solvePuzzle (mkGame (board game') (solution game') (fixed game') rng0)
      = Some (true, mkGame (solution game') (solution game') (fixed game') rng') /\
    isComplete (solution game') = true.
Proof.
  intros H rng0.
  destruct (createPuzzle_inv d game game' H)
    as [game1 [_ [_ [Hs [W [_ [D [_ [U _]]]]]]]]].
  destruct (completion_empty_legal _ Hs) as [Hw [Hc Hl]].
  unfold solvePuzzle. cbn [board rng solution fixed].
  destruct (solveBacktrack_correct (board game') rng0 W) as [[[ok g'] rng'] [E S]].
  rewrite E. destruct ok; simpl in S.
  - exists rng'. split; [|apply isComplete_spec; auto].
    assert (g' = solution game').
    { apply (unique_completion (board game')); auto.
      apply dugFrom_completion; auto. }
    subst. reflexivity.
  - destruct S as [_ Hno]. exfalso. apply (Hno (solution game')).
    apply dugFrom_completion; auto.
Qed.

Lemma createPuzzle_then_solvePuzzle_witness :
  createPuzzle EXPERT (newGame []) = Some (Returned tt samplePuzzle) /\
  forall rng0, exists rng',
    solvePuzzle (mkGame (board samplePuzzle) (solution samplePuzzle)
                        (fixed samplePuzzle) rng0)
      = Some (true, mkGame (solution samplePuzzle) (solution samplePuzzle)
                           (fixed samplePuzzle) rng') /\
    isComplete (solution samplePuzzle) = true.
Proof.
  assert (H : createPuzzle EXPERT (newGame []) = Some (Returned tt samplePuzzle))
    by (vm_compute; reflexivity).
  split; [exact H|].
  apply (createPuzzle_then_solvePuzzle EXPERT (newGame []) samplePuzzle H).
Defined.

(** X17.  A dead end is recognised: on a 9x9 grid with an empty cell that has
    no candidate, the solver returns false and leaves the grid as it was, the
    count of solutions is 0 and the uniqueness check answers false. *)
Theorem dead_end_has_no_solution g r c rng0 :
  wfGrid g -> inRange r -> inRange c ->
  get g r c = EMPTY -> getCandidates g r c = [] ->
  (exists rng', solveBacktrack g rng0 = Some (false, g, rng')) /\
  (exists tr, countSolutions g 0 2 = Some (g, 0, tr)) /\
  hasUniqueSolution g = Some false.
Proof.
  intros Hw Hr Hc He Hcand.
  assert (Hno : forall s, ~ completion g s).
  { intros s Hs. pose proof (completion_candidate g r c s Hr Hc He Hs) as K.
    rewrite Hcand in K. destruct K. }
  assert (HN : completions g = []).
  { destruct (completions g) as [|s l] eqn:E; auto.
    exfalso. apply (Hno s). apply completions_spec; auto.
    rewrite E. left. reflexivity. }
  conjs.
  - destruct (solveBacktrack_correct g rng0 Hw) as [[[ok g'] rng'] [E S]].
    destruct ok; simpl in S.
    + exfalso. apply (Hno g'); auto.
    + destruct S as [-> _]. eauto.
  - destruct (countSolutions_correct g 0 2 Hw) as [tr E].
    exists tr. rewrite E, HN. reflexivity.
  - rewrite (hasUniqueSolution_correct g Hw), HN. reflexivity.
Qed.

Lemma dead_end_has_no_solution_witness :
  wfGrid deadEndGrid /\ inRange 0 /\ inRange 0 /\
  get deadEndGrid 0 0 = EMPTY /\ getCandidates deadEndGrid 0 0 = [] /\
  ((exists rng', solveBacktrack deadEndGrid [1; 2; 3] = Some (false, deadEndGrid, rng')) /\
   (exists tr, countSolutions deadEndGrid 0 2 = Some (deadEndGrid, 0, tr)) /\
   hasUniqueSolution deadEndGrid = Some false).
Proof.
  assert (W : wfGrid deadEndGrid) by (apply wfGridb_spec; reflexivity).
  assert (R0 : inRange 0) by (unfold inRange, SIZE; lia).
  assert (E : get deadEndGrid 0 0 = EMPTY) by reflexivity.
  assert (C : getCandidates deadEndGrid 0 0 = []) by (vm_compute; reflexivity).
  split; [exact W|]. split; [exact R0|]. split; [exact R0|].
  split; [exact E|]. split; [exact C|].
  apply (dead_end_has_no_solution deadEndGrid 0 0 [1; 2; 3] W R0 R0 E C).
Defined.

(** X18.  A board without empty cells always passes the uniqueness check,
    whatever it holds: the count is 1 and no assignment is tried. *)
Theorem hasUniqueSolution_full_board g :
  completeGrid g ->
  countSolutions g 0 2 = Some (g, 1, []) /\ hasUniqueSolution g = Some true.
Proof.
  intros Hc. apply findBestCell_none in Hc.
  assert (E : countSolutions g 0 2 = Some (g, 1, [])).
  { unfold countSolutions, maxDepth. cbn [countSolutions_fuel].
    rewrite Hc. reflexivity. }
  split; [exact E|]. unfold hasUniqueSolution. rewrite E. reflexivity.
Qed.

Lemma hasUniqueSolution_full_board_witness :
  completeGrid (filled 5) /\
  (countSolutions (filled 5) 0 2 = Some (filled 5, 1, []) /\
   hasUniqueSolution (filled 5) = Some true).
Proof.
  assert (C : completeGrid (filled 5)) by (apply isComplete_spec; reflexivity).
  split; [exact C|]. apply (hasUniqueSolution_full_board (filled 5) C).
Defined.

(** X19.  From any starting count [countSolutions] returns with the grid as
    it was; a count that has already reached the limit is returned unchanged,
    otherwise the result is the smaller of the limit and the starting count
    plus the number of completions of the grid.  The count never decreases. *)
Theorem countSolutions_from_count g count limit :
  wfGrid g ->
  exists count' tr,
    countSolutions g count limit = Some (g, count', tr) /\
    count' = (if count >=? limit then count
              else Z.min limit (count + Z.of_nat (length (completions g)))) /\
    count <= count'.
Proof.
  intros Hw. destruct (countSolutions_correct g count limit Hw) as [tr E].
  eexists _, tr. split; [exact E|]. unfold capped.
  split; [reflexivity|]. destruct (count >=? limit) eqn:Ec; lia.
Qed.

Lemma countSolutions_from_count_witness :
  wfGrid (board samplePuzzle) /\
  exists count' tr,
    countSolutions (board samplePuzzle) 5 3 = Some (board samplePuzzle, count', tr) /\
    count' = (if 5 >=? 3 then 5
              else Z.min 3 (5 + Z.of_nat (length (completions (board samplePuzzle))))) /\
    5 <= count'.
Proof.
  assert (W : wfGrid (board samplePuzzle)) by (apply wfGridb_spec; reflexivity).
  split; [exact W|]. apply (countSolutions_from_count (board samplePuzzle) 5 3 W).
Defined.

(** ** Generated puzzles, statistics and the start of a game *)

(** X20.  For every difficulty and every generator [createPuzzle] returns a
    puzzle whose solution is a solved Sudoku; every cell of the board is empty
    or holds the digit of the solution; the fixed flag is set exactly on the
    filled cells; and the number of clues is at least the target, which lies
    between the base count of the difficulty and that count plus 5, and at
    most 81. *)
Theorem createPuzzle_postcondition d game :
  exists game1 game',
    generateSolution game = Some (true, game1) /\
    createPuzzle d game = Some (Returned tt game') /\
    solution game' = solution game1 /\
    solvedSudoku (solution game') /\
    (forall r c, inRange r -> inRange c ->
       (get (board game') r c = EMPTY \/
        get (board game') r c = get (solution game') r c) /\
       getb (fixed game') r c = negb (get (board game') r c =? EMPTY)) /\
    clues d <= targetClues d game1 <= clues d + 5 /\
    targetClues d game1 <= Z.of_nat (countFilled (board game')) <= 81.
Proof.
  destruct (createPuzzle_correct d game)
    as [game1 [b' [m' [rng' [G [E [Hs [W [Wm [D [C [U F]]]]]]]]]]]].
  exists game1, (mkGame b' (solution game1) m' rng').
  cbn [board solution fixed].
  destruct (completion_empty_legal _ Hs) as [Hw [Hc Hl]].
  split; [exact G|]. split; [exact E|]. split; [reflexivity|].
  split; [apply legal_complete_solved; auto|].
  split; [intros r c Hr Hcc; split; [apply D|apply C]; auto|].
  split; [apply targetClues_range|]. split.
  - apply unvisited_count. intros r c Hr Hcc Hn.
    rewrite (F r c Hr Hcc Hn). apply Hc; auto.
  - pose proof (countFilled_upper b'). unfold SIZE in *. lia.
Qed.

(** X21.  [newGame] always ends with a generated puzzle: whatever it reads
    and whatever the generator delivers, [createPuzzle] returns for the chosen
    difficulty, so the handler for a failed generation never runs, and the
    board passes the uniqueness check.  A failed read or a number outside
    1..4 selects Medium. *)
Theorem newGame_generates input game :
  exists game',
    Shell.newGame input game = Some game' /\
    createPuzzle (Shell.chosenDifficulty input) game = Some (Returned tt game') /\
    hasUniqueSolution (board game') = Some true /\
    Shell.chosenDifficulty input =
      match input with
      | Some 1 => EASY
      | Some 3 => HARD
      | Some 4 => EXPERT
      | _ => MEDIUM
      end.
Proof.
  destruct (createPuzzle_correct (Shell.chosenDifficulty input) game)
    as [game1 [b' [m' [rng' [_ [E [_ [_ [_ [_ [_ [U _]]]]]]]]]]]].
  eexists. unfold Shell.newGame. rewrite E.
  split; [reflexivity|]. split; [reflexivity|]. split; [exact U|].
  unfold Shell.chosenDifficulty.
  destruct input as [choice|]; [|reflexivity].
  destruct ((choice <? 1) || (choice >? 4)) eqn:Ec.
  - rewrite orb_true_iff in Ec.
    destruct choice as [|p|p]; [reflexivity| |reflexivity].
    destruct p as [[p|p|]|[p|[p|p|]|]|]; try reflexivity; lia.
  - rewrite orb_false_iff in Ec.
    assert (K : choice = 1 \/ choice = 2 \/ choice = 3 \/ choice = 4) by lia.
    destruct K as [->|[->|[->| ->]]]; reflexivity.
Qed.

Lemma showStatistics_fold board fixed l f g p :
  fold_left (fun acc q =>
    let '(filled, given, playerMoves) := acc in
    if negb (get board (fst q) (snd q) =? EMPTY) then
      if getb fixed (fst q) (snd q)
      then (filled + 1, given + 1, playerMoves)
      else (filled + 1, given, playerMoves + 1)
    else acc) l (f, g, p)
  = (f + Z.of_nat (length (filter (fun q => negb (get board (fst q) (snd q) =? EMPTY)) l)),
     g + Z.of_nat (length (filter (fun q => negb (get board (fst q) (snd q) =? EMPTY)
                                            && getb fixed (fst q) (snd q)) l)),
     p + Z.of_nat (length (filter (fun q => negb (get board (fst q) (snd q) =? EMPTY)
                                            && negb (getb fixed (fst q) (snd q))) l))).
Proof.
  revert f g p. induction l as [|q l IH]; intros f g p;
    cbn [fold_left filter].
  - cbn [length]. rewrite !Z.add_0_r. reflexivity.
  - destruct (negb (get board (fst q) (snd q) =? EMPTY)); cbn [andb].
    + destruct (getb fixed (fst q) (snd q)); cbn [negb]; rewrite IH;
        cbn [length]; rewrite !Nat2Z.inj_succ;
        (apply f_equal2; [apply f_equal2|]); lia.
    + apply IH.
Qed.

(** X22.  The counters of [showStatistics] are consistent: the first is the
    number of filled cells of the board, it is the sum of the given clues
    (filled and fixed) and the player's moves (filled and not fixed), and when
    every filled cell is fixed, as on a fresh puzzle, no player move is
    counted. *)
Theorem showStatistics_counts game :
  exists given playerMoves,
    showStatistics game
      = (Z.of_nat (countFilled (board game)), given, playerMoves) /\
    0 <= given /\ 0 <= playerMoves /\
    given + playerMoves = Z.of_nat (countFilled (board game)) /\
    ((forall r c, inRange r -> inRange c -> get (board game) r c <> EMPTY ->
        getb (fixed game) r c = true) ->
     playerMoves = 0).
Proof.
  unfold showStatistics. rewrite showStatistics_fold.
  eexists _, _. split; [reflexivity|]. split; [lia|]. split; [lia|]. split.
  - unfold countFilled. generalize allCells as l.
    induction l as [|q l IH]; cbn [filter]; [reflexivity|].
    destruct (negb (get (board game) (fst q) (snd q) =? EMPTY)); cbn [andb]; auto.
    destruct (getb (fixed game) (fst q) (snd q)); cbn [negb length];
      rewrite !Nat2Z.inj_succ; lia.
  - intros H. rewrite filter_nil; [reflexivity|].
    intros [r c] Hin. apply in_allCells in Hin. destruct Hin as [Hr Hc].
    cbn [fst snd].
    destruct (get (board game) r c =? EMPTY) eqn:E; [reflexivity|].
    apply Z.eqb_neq in E. rewrite (H r c Hr Hc E). reflexivity.
Qed.

(** ** Completeness of the suggestions *)

(** X23.  On a 9x9 board that has a completion and an empty cell,
    [getNextMove] suggests a move: its value is a digit 1..9. *)
Theorem getNextMove_finds_move game s r c :
  wfGrid (board game) -> completion (board game) s ->
  inRange r -> inRange c -> get (board game) r c = EMPTY ->
  exists m game',
    getNextMove game = Some (m, game') /\ 1 <= value m <= SIZE.
Proof.
  intros Hw Hs Hr Hc He. unfold getNextMove.
  destruct (value (getLogicalMove (board game)) =? -1) eqn:EV; simpl negb; cbv iota.
  - destruct (solveBacktrack_correct (board game) (rng game) Hw)
      as [[[ok g'] rng'] [E S]].
    rewrite E. destruct ok; simpl in S.
    + destruct (firstSome _ allCells) as [m|] eqn:EF.
      * eexists _, _. split; [reflexivity|].
        apply firstSome_in in EF. destruct EF as [[r' c'] [Hin Hf]].
        apply in_allCells in Hin. destruct Hin as [Hr' Hc'].
        destruct (get (board game) r' c' =? EMPTY) eqn:Ee; [|discriminate].
        apply Z.eqb_eq in Ee. inversion Hf; subst. cbn [value].
        destruct (completion_noConflict (board game) r' c' g' Hr' Hc' Ee S).
        auto.
      * exfalso. rewrite firstSome_none in EF.
        specialize (EF (r, c) (proj2 (in_allCells r c) (conj Hr Hc))).
        simpl in EF. rewrite He in EF. discriminate.
    + destruct S as [_ Hno]. exfalso. apply (Hno s); auto.
  - apply Z.eqb_neq in EV. eexists _, _. split; [reflexivity|].
    destruct (logicalMove_legal _ _ eq_refl EV) as [_ [_ [_ Hm]]].
    apply isValidMove_noConflict in Hm. tauto.
Qed.

Lemma getNextMove_finds_move_witness :
  wfGrid (board samplePuzzle) /\ completion (board samplePuzzle) solvedGrid /\
  inRange 0 /\ inRange 0 /\ get (board samplePuzzle) 0 0 = EMPTY /\
  exists m game',
    getNextMove samplePuzzle = Some (m, game') /\ 1 <= value m <= SIZE.
Proof.
  assert (W : wfGrid (board samplePuzzle)) by (apply wfGridb_spec; reflexivity).
  assert (C : completion (board samplePuzzle) solvedGrid)
    by (apply completionb_sound; vm_compute; reflexivity).
  assert (R0 : inRange 0) by (unfold inRange, SIZE; lia).
  assert (E : get (board samplePuzzle) 0 0 = EMPTY) by reflexivity.
  split; [exact W|]. split; [exact C|]. split; [exact R0|]. split; [exact R0|].
  split; [exact E|].
  apply (getNextMove_finds_move samplePuzzle solvedGrid 0 0 W C R0 R0 E).
Defined.

Lemma length_one_cases {A} (l : list A) :
  length l = 1%nat -> exists x, l = [x].
Proof.
  destruct l as [|x [|y l]]; simpl; try discriminate. eauto.
Qed.

(** X24.  [getLogicalMove] gives up only when there is nothing to find: if it
    answers (-1, -1, -1), no empty cell has exactly one candidate and, for
    every digit, no row, column or box has exactly one empty cell where
    [isValidMove] accepts the digit. *)
Theorem getLogicalMove_none board :
  getLogicalMove board = NoMove ->
  (forall r c, inRange r -> inRange c -> get board r c = EMPTY ->
     length (getCandidates board r c) <> 1%nat) /\
  (forall num, 1 <= num <= SIZE ->
     (forall r, inRange r ->
        length (filter (possible board num) (rowCells r)) <> 1%nat) /\
     (forall c, inRange c ->
        length (filter (possible board num) (colCells c)) <> 1%nat) /\
     (forall boxR boxC, 0 <= boxR < 3 -> 0 <= boxC < 3 ->
        length (filter (possible board num) (boxCells boxR boxC)) <> 1%nat)).
Proof.
  unfold getLogicalMove.
  destruct (nakedSingle board) as [m|] eqn:EN.
  { intros ->. destruct (nakedSingle_cases board NoMove EN)
      as [l1 [r [c [v [l2 [E [_ [_ [Hm _]]]]]]]]].
    destruct (in_allCells_split _ _ _ _ E) as [Hr _].
    inversion Hm. unfold inRange in Hr. lia. }
  destruct (firstSome (hiddenSingle board) (zrange 1 (Z.to_nat SIZE)))
    as [m|] eqn:EH.
  { intros ->. apply firstSome_in in EH. destruct EH as [num [Hn H]].
    apply in_zrange in Hn.
    destruct (hiddenSingle_cases board num NoMove H) as [U [r [c [_ [_ Hm]]]]].
    inversion Hm. lia. }
  intros _. split.
  - intros r c Hr Hc He Hlen. unfold nakedSingle in EN.
    rewrite firstSome_none in EN.
    specialize (EN (r, c) (proj2 (in_allCells r c) (conj Hr Hc))).
    simpl in EN. rewrite He in EN.
    destruct (length_one_cases _ Hlen) as [v Hv]. rewrite Hv in EN. discriminate.
  - intros num Hnum. rewrite firstSome_none in EH.
    assert (Hin : In num (zrange 1 (Z.to_nat SIZE)))
      by (apply in_zrange; unfold SIZE in *; simpl; lia).
    specialize (EH num Hin). unfold hiddenSingle in EH.
    destruct (hiddenSingleRows board num) eqn:ER; [discriminate|].
    destruct (hiddenSingleCols board num) eqn:EC; [discriminate|].
    unfold hiddenSingleRows in ER. unfold hiddenSingleCols in EC.
    unfold hiddenSingleBoxes in EH.
    rewrite firstSome_none in ER, EC, EH. conjs.
    + intros r Hr Hlen. specialize (ER r (proj2 (in_upto r) Hr)).
      unfold rowCells in Hlen. rewrite filter_map_swap, length_map in Hlen.
      unfold possible in Hlen. cbn [fst snd] in Hlen.
      destruct (length_one_cases _ Hlen) as [x Hx]. rewrite Hx in ER.
      discriminate.
    + intros c Hc Hlen. specialize (EC c (proj2 (in_upto c) Hc)).
      unfold colCells in Hlen. rewrite filter_map_swap, length_map in Hlen.
      unfold possible in Hlen. cbn [fst snd] in Hlen.
      destruct (length_one_cases _ Hlen) as [x Hx]. rewrite Hx in EC.
      discriminate.
    + intros boxR boxC HR HC Hlen.
      assert (IR : In boxR (zrange 0 3)) by (apply in_zrange; simpl; lia).
      assert (IC : In boxC (zrange 0 3)) by (apply in_zrange; simpl; lia).
      specialize (EH boxR IR). rewrite firstSome_none in EH.
      specialize (EH boxC IC).
      destruct (length_one_cases _ Hlen) as [[r c] Hx].
      unfold possible in Hx. rewrite Hx in EH. discriminate.
Qed.

Lemma getLogicalMove_none_witness :
  getLogicalMove (filled EMPTY) = NoMove /\
  ((forall r c, inRange r -> inRange c -> get (filled EMPTY) r c = EMPTY ->
      length (getCandidates (filled EMPTY) r c) <> 1%nat) /\
   (forall num, 1 <= num <= SIZE ->
      (forall r, inRange r ->
         length (filter (possible (filled EMPTY) num) (rowCells r)) <> 1%nat) /\
      (forall c, inRange c ->
         length (filter (possible (filled EMPTY) num) (colCells c)) <> 1%nat) /\
      (forall boxR boxC, 0 <= boxR < 3 -> 0 <= boxC < 3 ->
         length (filter (possible (filled EMPTY) num) (boxCells boxR boxC))
           <> 1%nat))).
Proof.
  assert (H : getLogicalMove (filled EMPTY) = NoMove) by (vm_compute; reflexivity).
  split; [exact H|]. apply (getLogicalMove_none (filled EMPTY) H).
Defined.
